(** * obsidian-lexicon: the dictionary-output parser, the note writer and
    the suggestion picker of [src/main.ts], embedded in Rocq.

    JavaScript strings are sequences of UTF-16 code units; they are modelled
    as lists of code-unit numbers.  Regular expressions created by
    [new RegExp(pattern, 'g')] are modelled by a small backtracking matcher
    over the syntax the three patterns of the plugin use. *)

From Equations.Prop Require Import Equations Logic.
From stdpp Require Import base option list strings pretty gmap.
From Stdlib Require Import ZArith NArith Lia.

Local Open Scope Z_scope.

(** ** Strings *)

Module JS.

(** A UTF-16 code unit. *)
Definition char := N.

(** A JavaScript string. *)
Definition jsstring := list char.

(** Code units of an ASCII literal. *)
Fixpoint lit (s : String.string) : jsstring :=
  match s with
  | String.EmptyString => []
  | String.String a s' => Ascii.N_of_ascii a :: lit s'
  end.

Arguments lit _%_string.

Definition LF : char := 10%N.
Definition QUOTE : char := 34%N.

(** ECMAScript [LineTerminator]: LF, CR, LS, PS. *)
Definition isLineTerminator (c : char) : bool :=
  (c =? 10)%N || (c =? 13)%N || (c =? 8232)%N || (c =? 8233)%N.

(** ECMAScript [WhiteSpace] (TAB, VT, FF, SP, NBSP, ZWNBSP and the space
    separators of category Zs) together with [LineTerminator]: the code units
    that [String.prototype.trim] strips. *)
Definition isWhiteSpace (c : char) : bool :=
  (c =? 9)%N || (c =? 11)%N || (c =? 12)%N || (c =? 32)%N || (c =? 160)%N
  || (c =? 5760)%N || ((8192 <=? c)%N && (c <=? 8202)%N)
  || (c =? 8239)%N || (c =? 8287)%N || (c =? 12288)%N || (c =? 65279)%N
  || isLineTerminator c.

Fixpoint trimStart (s : jsstring) : jsstring :=
  match s with
  | [] => []
  | c :: s' => if isWhiteSpace c then trimStart s' else s
  end.

Definition trimEnd (s : jsstring) : jsstring := rev (trimStart (rev s)).

(** [s.trim()] *)
Definition trim (s : jsstring) : jsstring := trimEnd (trimStart s).

(** [s.length] *)
Definition strlen (s : jsstring) : Z := Z.of_nat (length s).

(** Clamp an index into [0 .. s.length]. *)
Definition clamp (s : jsstring) (i : Z) : Z := Z.min (Z.max i 0) (strlen s).

(** [s.slice(start)]: a negative [start] counts from the end. *)
Definition slice (start : Z) (s : jsstring) : jsstring :=
  let from := if start <? 0 then Z.max (strlen s + start) 0
              else Z.min start (strlen s) in
  drop (Z.to_nat from) s.

(** [s.substring(start, end)]: both arguments are clamped and swapped when
    out of order. *)
Definition substring (start stop : Z) (s : jsstring) : jsstring :=
  let a := clamp s start in
  let b := clamp s stop in
  let lo := Z.min a b in
  let hi := Z.max a b in
  take (Z.to_nat (hi - lo)) (drop (Z.to_nat lo) s).

(** [s.substring(start)] *)
Definition substringFrom (start : Z) (s : jsstring) : jsstring :=
  drop (Z.to_nat (clamp s start)) s.

(** [s.startsWith(p)] *)
Fixpoint startsWith (p s : jsstring) : bool :=
  match p, s with
  | [], _ => true
  | _ :: _, [] => false
  | a :: p', b :: s' => (a =? b)%N && startsWith p' s'
  end.

(** [s.includes(q)]: [q] occurs in [s] as a literal substring. *)
Fixpoint includes (s q : jsstring) : bool :=
  startsWith q s ||
  match s with
  | [] => false
  | _ :: s' => includes s' q
  end.

(** [s.split(sep)] for a non-empty separator: scan left to right, cut at each
    occurrence of [sep] and resume after it.  [skip] counts the code units of
    the separator still to be passed over; [cur] is the segment being read,
    in reverse. *)
Fixpoint splitFrom (sep : jsstring) (skip : nat) (cur : jsstring) (s : jsstring)
  : list jsstring :=
  match s with
  | [] => [rev cur]
  | c :: s' =>
    match skip with
    | S k => splitFrom sep k cur s'
    | O => if startsWith sep s
           then rev cur :: splitFrom sep (length sep - 1) [] s'
           else splitFrom sep 0 (c :: cur) s'
    end
  end.

Definition split (sep : jsstring) (s : jsstring) : list jsstring :=
  splitFrom sep 0 [] s.

(** [parts.join(sep)] *)
Fixpoint join (sep : jsstring) (parts : list jsstring) : jsstring :=
  match parts with
  | [] => []
  | [p] => p
  | p :: rest => p ++ sep ++ join sep rest
  end.

End JS.
Import JS.

(** ** Regular expressions *)

Module RegExp.

(** One-character matchers: a literal code unit, [.] and [\d]. *)
Inductive atom :=
| Lit (c : char)
| AnyChar
| Digit.

(** Quantifiers (all greedy): none, [?] and [+]. *)
Inductive quant := Once | Optional | OneOrMore.

(** A compiled pattern: a sequence of quantified atoms. *)
Definition pattern := list (atom * quant).

Definition atomMatches (a : atom) (c : char) : bool :=
  match a with
  | Lit d => (c =? d)%N
  | AnyChar => negb (isLineTerminator c)
  | Digit => (48 <=? c)%N && (c <=? 57)%N
  end.

(** Literal text as a pattern. *)
Definition text (s : String.string) : pattern :=
  map (fun c => (Lit c, Once)) (lit s).

Arguments text _%_string.

(** Lexical items of a pattern source. *)
Inductive token := TAtom (a : atom) | TPlus | TQuestion.

(** The syntax characters of a pattern: [^ $ \ . * + ? ( ) [ ] { } |]. *)
Definition isSyntaxCharacter (c : char) : bool :=
  existsb (N.eqb c)
    [94; 36; 92; 46; 42; 43; 63; 40; 41; 91; 93; 123; 125; 124]%N.

(** Reading of a pattern source.  The part of the syntax that is read is the
    one the plugin writes: ordinary characters, [.], the escapes [\d] and
    [\n], and the postfix [+] and [?]; a source with anything else is
    refused. *)
Fixpoint tokenize (src : jsstring) : option (list token) :=
  match src with
  | [] => Some []
  | c :: rest =>
    if (c =? 92)%N then
      match rest with
      | e :: rest' =>
        if (e =? 100)%N then cons (TAtom Digit) <$> tokenize rest'
        else if (e =? 110)%N then cons (TAtom (Lit LF)) <$> tokenize rest'
        else None
      | [] => None
      end
    else if (c =? 46)%N then cons (TAtom AnyChar) <$> tokenize rest
    else if (c =? 43)%N then cons TPlus <$> tokenize rest
    else if (c =? 63)%N then cons TQuestion <$> tokenize rest
    else if isSyntaxCharacter c then None
    else cons (TAtom (Lit c)) <$> tokenize rest
  end.

Fixpoint assemble (ts : list token) : option pattern :=
  match ts with
  | [] => Some []
  | TAtom a :: TPlus :: ts' => cons (a, OneOrMore) <$> assemble ts'
  | TAtom a :: TQuestion :: ts' => cons (a, Optional) <$> assemble ts'
  | TAtom a :: ts' => cons (a, Once) <$> assemble ts'
  | _ => None
  end.

(** What [new RegExp(src)] compiles [src] to. *)
Definition compile (src : jsstring) : option pattern :=
  tokenize src ≫= assemble.

(** Backtracking match of [p] against a prefix of [s]; the result is the
    number of code units consumed.  Greedy quantifiers first try to consume,
    and give back one code unit at a time when the rest of the pattern
    fails. *)
Fixpoint matchHere (p : pattern) (s : jsstring) : option nat :=
  match p with
  | [] => Some O
  | (a, Once) :: p' =>
    match s with
    | c :: s' => if atomMatches a c then S <$> matchHere p' s' else None
    | [] => None
    end
  | (a, Optional) :: p' =>
    let taken :=
      match s with
      | c :: s' => if atomMatches a c then S <$> matchHere p' s' else None
      | [] => None
      end in
    match taken with
    | Some n => Some n
    | None => matchHere p' s
    end
  | (a, OneOrMore) :: p' =>
    (fix more (s : jsstring) : option nat :=
       match s with
       | c :: s' =>
         if atomMatches a c then
           match more s' with
           | Some n => Some (S n)
           | None => S <$> matchHere p' s'
           end
         else None
       | [] => None
       end) s
  end.

(** Scan for the leftmost position at which the pattern matches, starting at
    position [i] of the input, of which [s] is the part from [i] on. *)
Fixpoint scan (p : pattern) (i : nat) (s : jsstring) : option (nat * nat) :=
  match matchHere p s with
  | Some n => Some (i, n)
  | None =>
    match s with
    | [] => None
    | _ :: s' => scan p (S i) s'
    end
  end.

(** A [RegExp] object. *)
Record t := mk { source : pattern; global : bool; lastIndex : Z }.

(** [new RegExp(pattern, 'g')] *)
Definition create (p : pattern) : t :=
  {| source := p; global := true; lastIndex := 0 |}.

(** The match array of [exec]: [index] and element 0. *)
Record matchArray := { index : Z; matched : jsstring }.

(** [regex.exec(input)]: with the [g] flag the search starts at [lastIndex];
    [lastIndex] becomes the end of the match, or 0 when there is none. *)
Definition exec (r : t) (input : jsstring) : t * option matchArray :=
  let from := if global r then lastIndex r else 0 in
  if (from <? 0) || (strlen input <? from) then
    ({| source := source r; global := global r; lastIndex := 0 |}, None)
  else
    match scan (source r) (Z.to_nat from) (drop (Z.to_nat from) input) with
    | Some (i, n) =>
      ({| source := source r; global := global r;
          lastIndex := if global r then Z.of_nat (i + n) else lastIndex r |},
       Some {| index := Z.of_nat i; matched := take n (drop i input) |})
    | None =>
      ({| source := source r; global := global r; lastIndex := 0 |}, None)
    end.

End RegExp.

(** ** What a pattern matches, and that the matcher finds it *)

Module RegExpFacts.
Import RegExp.

(** The words of a pattern: the declarative reading of the syntax. *)
Inductive Matches : pattern -> jsstring -> Prop :=
| M_end : Matches [] []
| M_once a c p w :
    atomMatches a c = true -> Matches p w -> Matches ((a, Once) :: p) (c :: w)
| M_skip a p w :
    Matches p w -> Matches ((a, Optional) :: p) w
| M_take a c p w :
    atomMatches a c = true -> Matches p w ->
    Matches ((a, Optional) :: p) (c :: w)
| M_last a c p w :
    atomMatches a c = true -> Matches p w ->
    Matches ((a, OneOrMore) :: p) (c :: w)
| M_more a c p w :
    atomMatches a c = true -> Matches ((a, OneOrMore) :: p) w ->
    Matches ((a, OneOrMore) :: p) (c :: w).

Create HintDb regex.
#[export] Hint Constructors Matches : regex.

(** The pattern has a word at position [i] of the input. *)
Definition occursAt (p : pattern) (input : jsstring) (i : nat) (w : jsstring)
  : Prop :=
  Matches p w /\ exists post, drop i input = w ++ post /\ (i <= length input)%nat.

(** The fewest code units a word of the pattern can have. *)
Fixpoint minLength (p : pattern) : nat :=
  match p with
  | [] => O
  | (_, Optional) :: p' => minLength p'
  | (_, _) :: p' => S (minLength p')
  end.

Lemma matchHere_plus a p c s :
  matchHere ((a, OneOrMore) :: p) (c :: s) =
  if atomMatches a c then
    match matchHere ((a, OneOrMore) :: p) s with
    | Some n => Some (S n)
    | None => S <$> matchHere p s
    end
  else None.
Proof. reflexivity. Qed.

Lemma matchHere_plus_nil a p : matchHere ((a, OneOrMore) :: p) [] = None.
Proof. reflexivity. Qed.

Lemma Matches_minLength p w : Matches p w -> (minLength p <= length w)%nat.
Proof. induction 1; simpl in *; lia. Qed.

(** Soundness: what the matcher consumes is a word of the pattern. *)
Lemma matchHere_sound p : forall s n,
  matchHere p s = Some n -> (n <= length s)%nat /\ Matches p (take n s).
Proof.
  induction p as [|[a q] p IH]; intros s n H.
  - inversion H; subst. split; [lia|]. rewrite take_0. constructor.
  - destruct q.
    + destruct s as [|c s]; simpl in H; [discriminate|].
      destruct (atomMatches a c) eqn:Ha; [|discriminate].
      destruct (matchHere p s) as [m|] eqn:Hm; [|discriminate].
      inversion H; subst. destruct (IH _ _ Hm) as [Hl HM].
      split; [simpl; lia|]. simpl. eauto with regex.
    + simpl in H.
      destruct s as [|c s].
      * destruct (IH _ _ H) as [Hl HM]. split; [exact Hl|]. eauto with regex.
      * destruct (atomMatches a c) eqn:Ha.
        -- destruct (matchHere p s) as [m|] eqn:Hm; simpl in H.
           ++ inversion H; subst. destruct (IH _ _ Hm) as [Hl HM].
              split; [simpl; lia|]. simpl. eauto with regex.
           ++ destruct (IH _ _ H) as [Hl HM]. split; [exact Hl|].
              eauto with regex.
        -- destruct (IH _ _ H) as [Hl HM]. split; [exact Hl|].
           eauto with regex.
    + revert n H. induction s as [|c s IHs]; intros n H.
      * rewrite matchHere_plus_nil in H. discriminate.
      * rewrite matchHere_plus in H.
        destruct (atomMatches a c) eqn:Ha; [|discriminate].
        destruct (matchHere ((a, OneOrMore) :: p) s) as [m|] eqn:Hm.
        -- inversion H; subst. destruct (IHs _ eq_refl) as [Hl HM].
           split; [simpl; lia|]. simpl. eauto with regex.
        -- destruct (matchHere p s) as [m|] eqn:Hp; [|discriminate].
           inversion H; subst. destruct (IH _ _ Hp) as [Hl HM].
           split; [simpl; lia|]. simpl. eauto with regex.
Qed.

(** Completeness: where the pattern has a word, the matcher succeeds. *)
Lemma matchHere_complete p w :
  Matches p w -> forall rest, is_Some (matchHere p (w ++ rest)).
Proof.
  induction 1 as [|a c p w Ha _ IH|a p w _ IH|a c p w Ha _ IH
                  |a c p w Ha _ IH|a c p w Ha _ IH]; intros rest.
  - simpl. eauto.
  - simpl. rewrite Ha. destruct (IH rest) as [m ->]. simpl. eauto.
  - simpl. destruct (w ++ rest) as [|c s] eqn:E.
    + rewrite <- E. apply IH.
    + destruct (atomMatches a c); [|rewrite <- E; apply IH].
      destruct (matchHere p s); simpl; [eauto|]. rewrite <- E. apply IH.
  - simpl. rewrite Ha. destruct (IH rest) as [m ->]. simpl. eauto.
  - change ((c :: w) ++ rest) with (c :: (w ++ rest)).
    rewrite matchHere_plus, Ha.
    destruct (matchHere ((a, OneOrMore) :: p) (w ++ rest)); [eauto|].
    destruct (IH rest) as [m ->]. simpl. eauto.
  - change ((c :: w) ++ rest) with (c :: (w ++ rest)).
    rewrite matchHere_plus, Ha.
    destruct (IH rest) as [m ->]. eauto.
Qed.

Lemma matchHere_minLength p s n :
  matchHere p s = Some n -> (minLength p <= n)%nat.
Proof.
  intros H. destruct (matchHere_sound _ _ _ H) as [Hl HM].
  apply Matches_minLength in HM. rewrite length_take in HM. lia.
Qed.

(** [scan] returns the leftmost position with a match. *)
Lemma scan_Some p : forall s i j n,
  scan p i s = Some (j, n) ->
  (i <= j)%nat /\ (j - i + n <= length s)%nat /\
  matchHere p (drop (j - i) s) = Some n /\
  forall k, (k < j - i)%nat -> matchHere p (drop k s) = None.
Proof.
  induction s as [|c s IH]; intros i j n H; simpl in H.
  - destruct (matchHere p []) as [m|] eqn:Hm; [|discriminate].
    inversion H; subst. replace (j - j)%nat with O by lia.
    destruct (matchHere_sound _ _ _ Hm) as [Hl _].
    repeat split; [lia|simpl in *; lia|exact Hm|intros; lia].
  - destruct (matchHere p (c :: s)) as [m|] eqn:Hm.
    + inversion H; subst. replace (j - j)%nat with O by lia.
      destruct (matchHere_sound _ _ _ Hm) as [Hl _].
      repeat split; [lia|simpl in *; lia|exact Hm|intros; lia].
    + destruct (IH _ _ _ H) as (Hij & Hlen & Hat & Hbefore).
      replace (j - i)%nat with (S (j - S i)) by lia.
      repeat split; [lia|simpl; lia|exact Hat|].
      intros [|k] Hk; [exact Hm|]. simpl. apply Hbefore. lia.
Qed.

Lemma scan_None p : forall s i,
  scan p i s = None -> forall k, (k <= length s)%nat -> matchHere p (drop k s) = None.
Proof.
  induction s as [|c s IH]; intros i H k Hk; simpl in H.
  - destruct (matchHere p []) eqn:Hm; [discriminate|].
    rewrite drop_nil. exact Hm.
  - destruct (matchHere p (c :: s)) eqn:Hm; [discriminate|].
    destruct k as [|k]; [exact Hm|]. simpl. eapply IH; [exact H|].
    simpl in Hk. lia.
Qed.

Lemma occursAt_matchHere p input i w :
  occursAt p input i w -> is_Some (matchHere p (drop i input)).
Proof.
  intros [HM (post & -> & _)]. by apply matchHere_complete.
Qed.

Lemma matchHere_occursAt p input i n :
  (i <= length input)%nat ->
  matchHere p (drop i input) = Some n ->
  occursAt p input i (take n (drop i input)).
Proof.
  intros Hi H. destruct (matchHere_sound _ _ _ H) as [Hl HM].
  split; [exact HM|]. exists (drop n (drop i input)).
  by rewrite take_drop.
Qed.

(** *** The words of the pattern forms the plugin uses *)

Lemma Matches_nil_inv w : Matches [] w -> w = [].
Proof. inversion 1; reflexivity. Qed.

Lemma Matches_once_inv a p w :
  Matches ((a, Once) :: p) w ->
  exists c w', w = c :: w' /\ atomMatches a c = true /\ Matches p w'.
Proof. inversion 1; subst; eauto. Qed.

Lemma Matches_lits cs p w :
  Matches (map (fun c => (Lit c, Once)) cs ++ p) w <->
  exists rest, w = cs ++ rest /\ Matches p rest.
Proof.
  revert w. induction cs as [|c cs IH]; intros w; simpl.
  - split; [eauto|]. intros (rest & -> & H). exact H.
  - split.
    + intros H. apply Matches_once_inv in H as (d & w' & -> & Hd & H).
      apply IH in H as (rest & -> & H). simpl in Hd.
      apply N.eqb_eq in Hd as ->. eauto.
    + intros (rest & -> & H). constructor; [simpl; apply N.eqb_refl|].
      apply IH. eauto.
Qed.

Lemma Matches_text s p w :
  Matches (text s ++ p) w <-> exists rest, w = lit s ++ rest /\ Matches p rest.
Proof. apply Matches_lits. Qed.

Lemma Matches_plus_inv a p w :
  Matches ((a, OneOrMore) :: p) w ->
  exists run rest,
    run <> [] /\ Forall (fun c => atomMatches a c = true) run /\
    w = run ++ rest /\ Matches p rest.
Proof.
  remember ((a, OneOrMore) :: p) as q eqn:Hq. intros H.
  induction H as [| | | |a' c p' w Ha H _|a' c p' w Ha H IH];
    try discriminate; inversion Hq; subst.
  - exists [c], w. repeat split; [discriminate|auto|assumption].
  - destruct (IH eq_refl) as (run & rest & Hne & Hall & -> & Hrest).
    exists (c :: run), rest. repeat split; [discriminate|auto|assumption].
Qed.

Lemma Matches_plus_intro a p run rest :
  run <> [] -> Forall (fun c => atomMatches a c = true) run ->
  Matches p rest -> Matches ((a, OneOrMore) :: p) (run ++ rest).
Proof.
  intros Hne Hall Hrest. induction Hall as [|c run Hc Hall IH]; [done|].
  destruct run as [|d run].
  - simpl. apply M_last; assumption.
  - simpl. apply M_more; [assumption|]. apply IH. discriminate.
Qed.

Lemma Matches_plus_iff a p w :
  Matches ((a, OneOrMore) :: p) w <->
  exists run rest,
    run <> [] /\ Forall (fun c => atomMatches a c = true) run /\
    w = run ++ rest /\ Matches p rest.
Proof.
  split; [apply Matches_plus_inv|].
  intros (run & rest & Hne & Hall & -> & H). by apply Matches_plus_intro.
Qed.

Lemma Matches_opt_iff a p w :
  Matches ((a, Optional) :: p) w <->
  Matches p w \/ exists c w', w = c :: w' /\ atomMatches a c = true /\ Matches p w'.
Proof.
  split.
  - inversion 1; subst; eauto 6.
  - intros [H|(c & w' & -> & Hc & H)]; eauto with regex.
Qed.

End RegExpFacts.

(** ** The plugin *)

Module Lexicon.
Import RegExp RegExpFacts.

Record ObsidianLexiconSettings := { wordDir : jsstring; dictName : jsstring }.

Definition DEFAULT_SETTINGS : ObsidianLexiconSettings :=
  {| wordDir := lit "words"; dictName := lit "fd-fra-eng" |}.

(** The three pattern strings of the class, as the template literals
    evaluate: a backslash and [d], a backslash and [n]. *)
Definition definitionFoundSource : jsstring :=
  lit "\d+ definitions? found\n\n".

Definition noDefinitionSource : jsstring :=
  lit "No definitions found for " ++ [QUOTE] ++ lit ".+" ++ [QUOTE]
  ++ lit ", perhaps you mean:\n.+:  ".

Definition definitionSourceSource : jsstring := lit "From .+:\n\n".

(** Their compiled forms, which [getNextMatchBounds] is given. *)
Definition definitionFoundPattern : pattern :=
  [(Digit, OneOrMore)] ++ text " definition" ++ [(Lit 115%N, Optional)]
  ++ text " found" ++ [(Lit LF, Once); (Lit LF, Once)].

Definition noDefinitionPattern : pattern :=
  text "No definitions found for "
  ++ [(Lit QUOTE, Once); (AnyChar, OneOrMore); (Lit QUOTE, Once)]
  ++ text ", perhaps you mean:" ++ [(Lit LF, Once); (AnyChar, OneOrMore)]
  ++ text ":  ".

Definition definitionSourcePattern : pattern :=
  text "From " ++ [(AnyChar, OneOrMore)] ++ text ":"
  ++ [(Lit LF, Once); (Lit LF, Once)].

Lemma patterns_compiled :
  compile definitionFoundSource = Some definitionFoundPattern /\
  compile noDefinitionSource = Some noDefinitionPattern /\
  compile definitionSourceSource = Some definitionSourcePattern.
Proof. repeat split; reflexivity. Qed.

(** [getNextMatchBounds(pattern, input)]: a new [RegExp] object is made, [exec]
    is run once on it, and the bounds are read off its [lastIndex] and the
    length of the matched text. *)
Definition getNextMatchBounds (p : pattern) (input : jsstring)
  : option (Z * Z) :=
  let regex := RegExp.create p in
  let '(regex, matchFound) := RegExp.exec regex input in
  match matchFound with
  | None => None
  | Some m => Some (lastIndex regex - strlen (matched m), lastIndex regex)
  end.

Lemma getNextMatchBounds_scan p input :
  getNextMatchBounds p input =
  match scan p 0 input with
  | Some (i, n) => Some (Z.of_nat i, Z.of_nat (i + n))
  | None => None
  end.
Proof.
  unfold getNextMatchBounds, exec, create; simpl.
  assert ((strlen input <? 0) = false) as ->
    by (unfold strlen; apply Z.ltb_ge; lia).
  simpl. change (Z.to_nat 0) with 0%nat. rewrite drop_0.
  destruct (scan p 0 input) as [[i n]|] eqn:Hs; [|reflexivity].
  simpl. destruct (scan_Some _ _ _ _ _ Hs) as (_ & Hlen & _).
  unfold strlen. rewrite length_take, length_drop.
  do 2 f_equal. lia.
Qed.

(** The bounds returned lie inside the input and are at least [minLength]
    apart. *)
Lemma getNextMatchBounds_range p input a b :
  getNextMatchBounds p input = Some (a, b) ->
  0 <= a /\ a + Z.of_nat (minLength p) <= b /\ b <= strlen input.
Proof.
  rewrite getNextMatchBounds_scan.
  destruct (scan p 0 input) as [[i n]|] eqn:Hs; [|discriminate].
  intros H; inversion H; subst.
  destruct (scan_Some _ _ _ _ _ Hs) as (_ & Hlen & Hat & _).
  apply matchHere_minLength in Hat. unfold strlen. lia.
Qed.

(** One pass of the header-stripping loop of [tryParseDefinitions]: [None]
    when the loop condition fails, and otherwise the string with the first
    header cut out. *)
Definition stripStep (definitions : jsstring) : option jsstring :=
  match getNextMatchBounds definitionSourcePattern definitions with
  | None => None
  | Some (a, b) =>
    Some (substring 0 a definitions ++ substringFrom b definitions)
  end.

Lemma stripStep_shorter definitions definitions' :
  stripStep definitions = Some definitions' ->
  (length definitions' + 9 <= length definitions)%nat.
Proof.
  unfold stripStep.
  destruct (getNextMatchBounds _ _) as [[a b]|] eqn:Hb; [|discriminate].
  intros H; inversion H; subst; clear H.
  apply getNextMatchBounds_range in Hb.
  change (minLength definitionSourcePattern) with 9%nat in Hb.
  unfold substring, substringFrom, clamp, strlen in *.
  rewrite length_app, length_take, !length_drop. lia.
Qed.

(** The [while] loop of [tryParseDefinitions] (main.ts lines 71-78). *)
Equations? stripSources (definitions : jsstring) : jsstring
  by wf (length definitions) lt :=
stripSources definitions with inspect (stripStep definitions) := {
  | exist _ (Some definitions') _ => stripSources definitions';
  | exist _ None _ => definitions }.
Proof. apply stripStep_shorter in e. lia. Qed.

(** The loop run for [n] passes: [None] when it had stopped before. *)
Fixpoint stripIter (n : nat) (definitions : jsstring) : option jsstring :=
  match n with
  | O => Some definitions
  | S k => stripStep definitions ≫= stripIter k
  end.

(** What [tryParseDefinitions(text)] returns; [None] is [null].  The call
    with the error it logs is [callTryParseDefinitions] below. *)
Definition tryParseDefinitions (text : jsstring) : option jsstring :=
  match getNextMatchBounds definitionFoundPattern text with
  | None => None
  | Some matchBounds =>
    let definitions := trim (slice (snd matchBounds - 1) text) in
    let definitions := stripSources definitions in
    Some (trim definitions)
  end.

(** What [tryParseWordSuggestions(text)] returns; [None] is [null].  The
    call with the error it logs is [callTryParseWordSuggestions] below. *)
Definition tryParseWordSuggestions (text : jsstring)
  : option (list jsstring) :=
  match getNextMatchBounds noDefinitionPattern text with
  | None => None
  | Some matchBounds =>
    let suggestions := split (lit "  ") (slice (snd matchBounds) text) in
    Some suggestions
  end.

(** *** Effects: the file system, the external process and the user
    interface *)

(** How a child process ended. *)
Inductive ProcessResult :=
| Exited (code : Z) (out err : jsstring)
| Killed (out err : jsstring)
| SpawnFailed (reason : jsstring).

(** The error object [execSync] throws. *)
Record ExecError := { status : option Z; stderr : jsstring; message : jsstring }.

Inductive Effect :=
| Notice (msg : jsstring)
| ConsoleError (msg : jsstring)
| ConsoleLog (msg : jsstring)
| ReplaceSelection (replacement : jsstring)
| OpenSuggestionModal (suggestions : list jsstring)
| SetStatusBarText (msg : jsstring)
| Spawn (command : jsstring).

(** A [writeFile] call whose callback has not run yet. *)
Record PendingWrite := { target : jsstring; data : jsstring; forWord : jsstring }.

Record World := {
  files : gmap jsstring jsstring;
  pendingWrites : list PendingWrite;
  processes : jsstring -> ProcessResult;
  trace : list Effect
}.

(** A call either returns or throws. *)
Inductive completion (A : Type) :=
| Normal (a : A)
| Throw (e : ExecError).
Arguments Normal {A} a.
Arguments Throw {A} e.

Definition M (A : Type) : Type := World -> completion A * World.

#[export] Instance M_ret : MRet M := fun A a w => (Normal a, w).

#[export] Instance M_bind : MBind M := fun A B f m w =>
  match m w with
  | (Normal a, w') => f a w'
  | (Throw e, w') => (Throw e, w')
  end.

Definition throw {A} (e : ExecError) : M A := fun w => (Throw e, w).

(** [try { body } catch (err) { handler }] *)
Definition tryCatch {A} (body : M A) (handler : ExecError -> M A) : M A :=
  fun w =>
    match body w with
    | (Normal a, w') => (Normal a, w')
    | (Throw e, w') => handler e w'
    end.

(** The world after more effects were observed. *)
Definition logged (es : list Effect) (w : World) : World :=
  {| files := files w; pendingWrites := pendingWrites w;
     processes := processes w; trace := trace w ++ es |}.

Definition emit (e : Effect) : M unit := fun w => (Normal tt, logged [e] w).

(** [fs.existsSync(path)] *)
Definition existsSync (path : jsstring) : M bool := fun w =>
  (Normal (bool_decide (is_Some (files w !! path))), w).

(** [fs.writeFile(path, text, callback)]: the write is queued; it happens, and
    its callback runs, in a later turn of the event loop.  [files] is the
    vault as the completed writes left it: a write in flight is taken not to
    have touched its file yet. *)
Definition writeFile (path text word : jsstring) : M unit := fun w =>
  (Normal tt,
   {| files := files w;
      pendingWrites :=
        pendingWrites w ++ [{| target := path; data := text; forWord := word |}];
      processes := processes w; trace := trace w |}).

(** The message of the error [execSync] throws for a command that failed:
    the text of stderr follows on a line of its own when there is any. *)
Definition commandFailed (command err : jsstring) : jsstring :=
  lit "Command failed: " ++ command
  ++ match err with [] => [] | _ :: _ => LF :: err end.

(** Wait for the child process and hand over its result the way [execSync]
    does: the stdout of a process that exits with status 0 is returned, every
    other ending is thrown. *)
Definition awaitProcess (command : jsstring) : M jsstring :=
  fun w =>
    match processes w command with
    | Exited 0 out _ => (Normal out, w)
    | Exited code _ err =>
      (Throw {| status := Some code; stderr := err;
                message := commandFailed command err |},
       w)
    | Killed _ err =>
      (Throw {| status := None; stderr := err;
                message := commandFailed command err |},
       w)
    | SpawnFailed reason =>
      (Throw {| status := None; stderr := []; message := reason |}, w)
    end.

(** [execSync(command)] *)
Definition execSync (command : jsstring) : M jsstring :=
  emit (Spawn command);;
  awaitProcess command.

Section Plugin.

Variable settings : ObsidianLexiconSettings.

(** The command line of the lookup. *)
Definition queryCommand (query : jsstring) : jsstring :=
  lit "/opt/homebrew/bin/dict -d " ++ dictName settings ++ lit " " ++ query.

(** [getDictionaryResult(query)]; [None] is [null]. *)
Definition getDictionaryResult (query : jsstring) : M (option jsstring) :=
  tryCatch
    (stdout ← execSync (queryCommand query);
     mret (Some stdout))
    (fun err =>
       if decide (status err = Some 21) then
         let stdout := stderr err in
         mret (Some stdout)
       else
         emit (ConsoleError
                 (lit "Failed to execute dict command: " ++ message err));;
         mret None).

(** [getDirFileCount(path)]: the value computed in the callback of [readdir]
    is dropped, and the function returns -1.  The callback runs in a later
    turn; what it logs then, when the directory cannot be read, is not part
    of this call. *)
Definition getDirFileCount (path : jsstring) : M Z := mret (-1).

Definition updateStatusBar : M unit :=
  wordCount ← getDirFileCount (wordDir settings);
  if decide (wordCount = -1) then
    emit (Notice
            (lit "Error getting word count from configured word directory."));;
    emit (SetStatusBarText (lit "Lexicon Words: N/A"))
  else
    emit (SetStatusBarText (lit "Lexicon Words: " ++ lit (pretty wordCount))).

Definition alreadyExistsMsg (word : jsstring) : jsstring :=
  lit "Entry for word " ++ word ++ lit " already exists.".

(** [createWordNote(path, word, text)] *)
Definition createWordNote (path word text : jsstring) : M unit :=
  present ← existsSync path;
  if present : bool then
    emit (Notice (alreadyExistsMsg word));;
    emit (ConsoleLog (alreadyExistsMsg word))
  else
    writeFile path text word.

(** The callback given to [writeFile], run with the error or [None]. *)
Definition writeCallback (word : jsstring) (err : option jsstring) : M unit :=
  match err with
  | Some e => emit (ConsoleError e)
  | None =>
    emit (Notice (lit "Created a new note for word: " ++ word));;
    emit (ConsoleLog (lit "Created new note for word " ++ word))
  end.

(** A turn of the event loop that completes the oldest queued write: with
    [err = None] the file gets its content; with an error nothing is written.
    The callback runs in both cases. *)
Definition completeWrite (err : option jsstring) : M unit := fun w =>
  match pendingWrites w with
  | [] => (Normal tt, w)
  | pw :: rest =>
    writeCallback (forWord pw) err
      {| files := match err with
                  | None => <[target pw := data pw]> (files w)
                  | Some _ => files w
                  end;
         pendingWrites := rest;
         processes := processes w; trace := trace w |}
  end.

Definition couldntFindMsg (word : jsstring) : jsstring :=
  lit "Couldn't find word: " ++ word ++ lit " in the dictionary.".

Definition noSuggestionsMsg (word : jsstring) : jsstring :=
  lit "No suggestions given for word " ++ word.

(** [!dictResult]: [null] and the empty string are falsy. *)
Definition falsy (dictResult : option jsstring) : bool :=
  match dictResult with
  | None | Some [] => true
  | Some (_ :: _) => false
  end.

Definition definitionFormatMsg : jsstring :=
  lit "Definition output failed to match expected format.".

Definition suggestionFormatMsg : jsstring :=
  lit "Missing definition output failed to match expected format.".

(** The call [tryParseDefinitions(text)] (main.ts lines 59-81): the error it
    logs before it returns [null], and its value. *)
Definition callTryParseDefinitions (text : jsstring) : M (option jsstring) :=
  match getNextMatchBounds definitionFoundPattern text with
  | None =>
    emit (ConsoleError definitionFormatMsg);;
    mret None
  | Some matchBounds =>
    let definitions := trim (slice (snd matchBounds - 1) text) in
    let definitions := stripSources definitions in
    mret (Some (trim definitions))
  end.

(** The call [tryParseWordSuggestions(text)] (main.ts lines 83-96): the error
    it logs before it returns [null], and its value. *)
Definition callTryParseWordSuggestions (text : jsstring)
  : M (option (list jsstring)) :=
  match getNextMatchBounds noDefinitionPattern text with
  | None =>
    emit (ConsoleError suggestionFormatMsg);;
    mret None
  | Some matchBounds =>
    let suggestions := split (lit "  ") (slice (snd matchBounds) text) in
    mret (Some suggestions)
  end.

(** [addWordEntry(word, editor)] *)
Definition addWordEntry (word : jsstring) : M unit :=
  dictResult ← getDictionaryResult word;
  if falsy dictResult then
    emit (Notice (couldntFindMsg word));;
    emit (ConsoleError (lit "Failed to get dictionary result for " ++ word))
  else
    let dictResult := default [] dictResult in
    definition ← callTryParseDefinitions dictResult;
    match definition with
    | None =>
      suggestions ← callTryParseWordSuggestions dictResult;
      match suggestions with
      | None =>
        emit (Notice (couldntFindMsg word));;
        emit (ConsoleError (noSuggestionsMsg word))
      | Some suggestions =>
        if (length suggestions <? 1)%nat then
          emit (Notice (couldntFindMsg word));;
          emit (ConsoleError (noSuggestionsMsg word))
        else
          emit (Notice (lit "Couldn't find word: " ++ word
                        ++ lit ", did you mean one of these words?"));;
          emit (OpenSuggestionModal suggestions)
      end
    | Some definition =>
      let wordNotePath := wordDir settings ++ lit "/" ++ word ++ lit ".md" in
      emit (ReplaceSelection word);;
      createWordNote wordNotePath word definition;;
      updateStatusBar
    end.

(** The callback the modal is opened with: the chosen suggestion, trimmed,
    is looked up in turn when an editor is active. *)
Definition onSubmit (editorActive : bool) (value : jsstring) : M unit :=
  if editorActive then addWordEntry (trim value)
  else
    emit (ConsoleError
            (lit "No editor active, expected active editor when replacing selection.")).

End Plugin.

(** *** The editor command and the picker's choice *)

(** The [editorCallback] of the command [create-word-entry] (main.ts lines
    40-52), given what [editor.getSelection()] returns. *)
Definition editorCallback (settings : ObsidianLexiconSettings)
  (selection : jsstring) : M unit :=
  emit (ConsoleLog selection);;
  if strlen selection <? 1 then
    emit (Notice (lit "Please select a word for which to create an entry."));;
    emit (ConsoleError (lit "Empty selection"))
  else
    addWordEntry settings selection.

(** [WordSuggestionModal.onChooseSuggestion(suggestion, evt)], for the modal
    [addWordEntry] opens: it calls the [onSubmit] it was built with. *)
Definition onChooseSuggestion (settings : ObsidianLexiconSettings)
  (editorActive : bool) (suggestion : jsstring) : M unit :=
  onSubmit settings editorActive suggestion.

(** *** The three outcomes of a lookup

    [addWordEntry] branches on the two parse results (main.ts lines 108-121):
    a definition, a non-empty suggestion list, or neither.  [parse] names the
    branch taken. *)

Inductive ParseResult :=
| Found (definition : jsstring)
| NotFound (suggestions : list jsstring)
| Malformed.

Definition parse (raw : jsstring) : ParseResult :=
  match tryParseDefinitions raw with
  | Some definition => Found definition
  | None =>
    match tryParseWordSuggestions raw with
    | None => Malformed
    | Some suggestions =>
      if (length suggestions <? 1)%nat then Malformed else NotFound suggestions
    end
  end.

(** What [addWordEntry] does once the dictionary result is in, with the
    errors the two parsers log on the way. *)
Definition dispatch (settings : ObsidianLexiconSettings) (word : jsstring)
  (dictResult : option jsstring) : M unit :=
  if falsy dictResult then
    emit (Notice (couldntFindMsg word));;
    emit (ConsoleError (lit "Failed to get dictionary result for " ++ word))
  else
    match parse (default [] dictResult) with
    | Malformed =>
      emit (ConsoleError definitionFormatMsg);;
      emit (ConsoleError suggestionFormatMsg);;
      emit (Notice (couldntFindMsg word));;
      emit (ConsoleError (noSuggestionsMsg word))
    | NotFound suggestions =>
      emit (ConsoleError definitionFormatMsg);;
      emit (Notice (lit "Couldn't find word: " ++ word
                    ++ lit ", did you mean one of these words?"));;
      emit (OpenSuggestionModal suggestions)
    | Found definition =>
      emit (ReplaceSelection word);;
      createWordNote (wordDir settings ++ lit "/" ++ word ++ lit ".md")
                     word definition;;
      updateStatusBar settings
    end.

(** *** The suggestion picker *)

Section WordSuggestionModal.

(** [String.prototype.toLowerCase]: the Unicode case mapping is the host's. *)
Variable toLowerCase : jsstring -> jsstring.

(** [WordSuggestionModal.getSuggestions(query)] *)
Definition getSuggestions (suggestions : list jsstring) (query : jsstring)
  : list jsstring :=
  filter (fun suggestion =>
            includes (toLowerCase suggestion) (toLowerCase query) = true)
         suggestions.

End WordSuggestionModal.

(** Lower-casing of the ASCII letters, the part of the mapping the examples
    use. *)
Definition asciiLower (s : jsstring) : jsstring :=
  map (fun c => if (65 <=? c)%N && (c <=? 90)%N then (c + 32)%N else c) s.

(** *** Inputs of the scenarios *)

Definition scenarioA : jsstring :=
  lit "1 definition found" ++ [LF; LF] ++ lit "From Test Dict:" ++ [LF; LF]
  ++ lit "cat: a small domestic animal".

Definition scenarioB : jsstring :=
  lit "No definitions found for " ++ [QUOTE] ++ lit "catt" ++ [QUOTE]
  ++ lit ", perhaps you mean:" ++ [LF] ++ lit "cat  catty  category  ".

(** Scenario B as the dict tool prints it, the list led by the database
    name. *)
Definition scenarioB_dict : jsstring :=
  lit "No definitions found for " ++ [QUOTE] ++ lit "catt" ++ [QUOTE]
  ++ lit ", perhaps you mean:" ++ [LF]
  ++ lit "fd-fra-eng:  cat  catty  category  ".

Definition emptyWorld (procs : jsstring -> ProcessResult) : World :=
  {| files := ∅; pendingWrites := []; processes := procs; trace := [] |}.

(** *** Vocabulary of the statements *)

(** Whitespace only. *)
Definition blank (s : jsstring) : Prop :=
  Forall (fun c => isWhiteSpace c = true) s.

Definition COLON : char := 58%N.

(** Text within one line. *)
Definition lineText (s : jsstring) : Prop :=
  Forall (fun c => atomMatches AnyChar c = true) s.

Definition digits (s : jsstring) : Prop :=
  Forall (fun c => atomMatches Digit c = true) s.

(** [From <source>:] and a blank line. *)
Definition sourceHeader (source : jsstring) : jsstring :=
  lit "From " ++ source ++ [COLON; LF; LF].

(** A header stands in [x] between [pre] and [post]: [From ], a source that
    is not empty and stays within its line, a colon and a blank line. *)
Definition headerAt (x pre source post : jsstring) : Prop :=
  x = pre ++ sourceHeader source ++ post /\ source <> [] /\ lineText source.

(** It is the first one: no header of [x] starts further left. *)
Definition firstHeader (x pre source post : jsstring) : Prop :=
  headerAt x pre source post /\
  forall pre' source' post',
    headerAt x pre' source' post' -> (length pre <= length pre')%nat.

(** Removing every header: [StripsTo x y] when [y] is what is left of [x]
    once its headers have been taken out one after the other, the first one
    each time, until there is none.  This is written from the words of the
    specification, not from the loop; [stripSources] is compared with it. *)
Inductive StripsTo : jsstring -> jsstring -> Prop :=
| StripsTo_done x :
    (forall pre source post, ~ headerAt x pre source post) -> StripsTo x x
| StripsTo_step x pre source post y :
    firstHeader x pre source post -> StripsTo (pre ++ post) y -> StripsTo x y.

(** [<count> definition(s) found] and a blank line. *)
Definition foundMarker (count : jsstring) (plural : bool) : jsstring :=
  count ++ lit " definition" ++ (if plural then lit "s" else [])
  ++ lit " found" ++ [LF; LF].

(** [No definitions found for "<term>", perhaps you mean:], a newline and
    [<source>:] with its two spaces. *)
Definition notFoundMarker (term source : jsstring) : jsstring :=
  lit "No definitions found for " ++ [QUOTE] ++ term ++ [QUOTE]
  ++ lit ", perhaps you mean:" ++ [LF] ++ source ++ lit ":  ".

(** The path of the note of a word, as [addWordEntry] builds it. *)
Definition notePath (settings : ObsidianLexiconSettings) (word : jsstring)
  : jsstring :=
  wordDir settings ++ lit "/" ++ word ++ lit ".md".

(** What [updateStatusBar] shows. *)
Definition statusEffects : list Effect :=
  [Notice (lit "Error getting word count from configured word directory.");
   SetStatusBarText (lit "Lexicon Words: N/A")].

Definition isSpawn (e : Effect) : bool :=
  match e with Spawn _ => true | _ => false end.

(** What [getDictionaryResult] returns for each way the process can end. *)
Definition invokeResult (p : ProcessResult) : option jsstring :=
  match p with
  | Exited code out err =>
    if decide (code = 0) then Some out
    else if decide (code = 21) then Some err else None
  | Killed _ _ | SpawnFailed _ => None
  end.

(** What it logs besides. *)
Definition invokeLog (command : jsstring) (p : ProcessResult) : list Effect :=
  match invokeResult p, p with
  | Some _, _ => []
  | None, SpawnFailed reason =>
    [ConsoleError (lit "Failed to execute dict command: " ++ reason)]
  | None, Exited _ _ err | None, Killed _ err =>
    [ConsoleError (lit "Failed to execute dict command: "
                   ++ commandFailed command err)]
  end.

End Lexicon.
Import Lexicon.

(** ** The settings *)

Module Settings.

(** A settings object, as [Object.assign] and [saveData] see it, is a map
    from property names to values.  This is [DEFAULT_SETTINGS] as an
    object. *)
Definition DEFAULT_OBJECT : gmap jsstring jsstring :=
  <[lit "wordDir" := wordDir DEFAULT_SETTINGS]>
    (<[lit "dictName" := dictName DEFAULT_SETTINGS]> ∅).

(** [Object.assign(target, source)]: the properties of the source are written
    over those of the target; a [null] source is passed over. *)
Definition objectAssign (target : gmap jsstring jsstring)
  (source : option (gmap jsstring jsstring)) : gmap jsstring jsstring :=
  default ∅ source ∪ target.

(** The plugin's [settings] field, the content of its data file ([None] when
    there is none, for which [loadData] gives [null]) and what the user was
    shown. *)
Record Host := {
  settings : gmap jsstring jsstring;
  dataFile : option (gmap jsstring jsstring);
  shown : list Effect
}.

(** [loadSettings()] *)
Definition loadSettings (h : Host) : Host :=
  {| settings := objectAssign (objectAssign ∅ (Some DEFAULT_OBJECT)) (dataFile h);
     dataFile := dataFile h; shown := shown h |}.

(** [saveSettings()] *)
Definition saveSettings (h : Host) : Host :=
  {| settings := settings h; dataFile := Some (settings h); shown := shown h |}.

(** The fields the plugin reads, [None] for [undefined]. *)
Definition wordDirOf (h : Host) : option jsstring := settings h !! lit "wordDir".
Definition dictNameOf (h : Host) : option jsstring := settings h !! lit "dictName".

Section Tab.

(** [app.vault.adapter.basePath], and [app.vault.getFolderByPath] giving the
    [path] of the folder found. *)
Variable basePath : jsstring.
Variable getFolderByPath : jsstring -> option jsstring.

(** The [onChange] handler of the Word Directory field (main.ts lines
    292-304). *)
Definition onChangeWordDir (value : jsstring) (h : Host) : Host :=
  match getFolderByPath value with
  | None =>
    {| settings := settings h; dataFile := dataFile h;
       shown := shown h ++ [Notice (lit "Invalid path to word directory.")] |}
  | Some path =>
    let wordDir := basePath ++ lit "/" ++ path in
    saveSettings
      {| settings := <[lit "wordDir" := wordDir]> (settings h);
         dataFile := dataFile h;
         shown := shown h ++ [ConsoleLog wordDir] |}
  end.

(** The [onChange] handler of the Dictionary Name field (main.ts lines
    312-315). *)
Definition onChangeDictName (value : jsstring) (h : Host) : Host :=
  saveSettings
    {| settings := <[lit "dictName" := value]> (settings h);
       dataFile := dataFile h; shown := shown h |}.

(** What the user types into the two fields. *)
Inductive edit :=
| EditWordDir (value : jsstring)
| EditDictName (value : jsstring).

Definition handle (h : Host) (e : edit) : Host :=
  match e with
  | EditWordDir value => onChangeWordDir value h
  | EditDictName value => onChangeDictName value h
  end.

End Tab.

(** The settings have both properties, and the data file holds them or is
    as it was found. *)
Definition consistent (h0 h : Host) : Prop :=
  is_Some (wordDirOf h) /\ is_Some (dictNameOf h) /\
  (dataFile h = Some (settings h) \/
   (dataFile h = dataFile h0 /\ settings h = settings (loadSettings h0))).

End Settings.

(** ** An earlier revision of the match search *)

Module Earlier.
Import RegExp.

(** [getLastMatchIndex(pattern, input)] of the earlier revision of the class:
    the end of the first match, or -1. *)
Definition getLastMatchIndex (p : pattern) (input : jsstring) : Z :=
  let regex := RegExp.create p in
  let '(regex, matchFound) := RegExp.exec regex input in
  match matchFound with
  | None => -1
  | Some _ => lastIndex regex
  end.

End Earlier.

(** ** Properties of the string operations *)

Section StringFacts.
Import RegExp RegExpFacts.

Lemma strlen_nonneg s : 0 <= strlen s.
Proof. unfold strlen. lia. Qed.

Lemma substring_take_drop s a b :
  0 <= a <= b -> b <= strlen s ->
  substring a b s = take (Z.to_nat (b - a)) (drop (Z.to_nat a) s).
Proof.
  intros Hab Hb. unfold substring, clamp.
  replace (Z.min (Z.max a 0) (strlen s)) with a by lia.
  replace (Z.min (Z.max b 0) (strlen s)) with b by lia.
  replace (Z.min a b) with a by lia. replace (Z.max a b) with b by lia.
  reflexivity.
Qed.

Lemma substring_prefix s a :
  0 <= a <= strlen s -> substring 0 a s = take (Z.to_nat a) s.
Proof.
  intros Ha. rewrite substring_take_drop by lia.
  change (Z.to_nat 0) with O. rewrite drop_0. f_equal. lia.
Qed.

Lemma substringFrom_drop s b :
  0 <= b <= strlen s -> substringFrom b s = drop (Z.to_nat b) s.
Proof.
  intros Hb. unfold substringFrom, clamp. f_equal. lia.
Qed.

Lemma slice_drop s a :
  0 <= a <= strlen s -> slice a s = drop (Z.to_nat a) s.
Proof.
  intros Ha. unfold slice.
  destruct (a <? 0) eqn:E; [apply Z.ltb_lt in E; lia|].
  f_equal. lia.
Qed.

Lemma splitFrom_nonempty sep : forall s skip cur,
  (1 <= length (splitFrom sep skip cur s))%nat.
Proof.
  induction s as [|c s IH]; intros skip cur; simpl; [lia|].
  destruct skip; [|apply IH].
  destruct (startsWith sep (c :: s)); [simpl; lia|apply IH].
Qed.

Lemma split_nonempty sep s : (1 <= length (split sep s))%nat.
Proof. apply splitFrom_nonempty. Qed.

End StringFacts.

(** ** Match bounds *)

Section Bounds.
Import RegExp RegExpFacts.

Lemma getNextMatchBounds_Some p input a b :
  getNextMatchBounds p input = Some (a, b) ->
  exists i n,
    a = Z.of_nat i /\ b = Z.of_nat (i + n) /\ (i + n <= length input)%nat /\
    matchHere p (drop i input) = Some n /\
    forall k, (k < i)%nat -> matchHere p (drop k input) = None.
Proof.
  rewrite getNextMatchBounds_scan.
  destruct (scan p 0 input) as [[i n]|] eqn:Hs; [|discriminate].
  intros H; inversion H; subst; clear H.
  destruct (scan_Some _ _ _ _ _ Hs) as (_ & Hlen & Hat & Hbefore).
  rewrite Nat.sub_0_r in *. exists i, n. repeat split; auto; lia.
Qed.

Lemma getNextMatchBounds_None p input :
  getNextMatchBounds p input = None ->
  forall k, (k <= length input)%nat -> matchHere p (drop k input) = None.
Proof.
  rewrite getNextMatchBounds_scan.
  destruct (scan p 0 input) as [[i n]|] eqn:Hs; [discriminate|].
  intros _. eapply scan_None. exact Hs.
Qed.

Lemma getNextMatchBounds_absent p input :
  (forall i w, ~ occursAt p input i w) -> getNextMatchBounds p input = None.
Proof.
  intros Hno. destruct (getNextMatchBounds p input) as [[a b]|] eqn:Hb;
    [|reflexivity].
  destruct (getNextMatchBounds_Some _ _ _ _ Hb) as (i & n & _ & _ & Hlen & Hat & _).
  exfalso. eapply Hno. apply matchHere_occursAt; [|exact Hat]. lia.
Qed.

Lemma getNextMatchBounds_None_absent p input :
  getNextMatchBounds p input = None -> forall i w, ~ occursAt p input i w.
Proof.
  intros Hb i w Hocc.
  pose proof (occursAt_matchHere _ _ _ _ Hocc) as [n Hn].
  destruct Hocc as [_ (post & _ & Hi)].
  rewrite (getNextMatchBounds_None _ _ Hb i Hi) in Hn. discriminate.
Qed.

Lemma getNextMatchBounds_word p input a b :
  getNextMatchBounds p input = Some (a, b) -> Matches p (substring a b input).
Proof.
  intros Hb. destruct (getNextMatchBounds_Some _ _ _ _ Hb)
    as (i & n & -> & -> & Hlen & Hat & _).
  destruct (matchHere_sound _ _ _ Hat) as [_ HM].
  rewrite substring_take_drop by (unfold strlen; lia).
  rewrite Nat2Z.id. by replace (Z.to_nat (Z.of_nat (i + n) - Z.of_nat i)) with n by lia.
Qed.

Lemma exec_create p input :
  snd (RegExp.exec (RegExp.create p) input) =
  match scan p 0 input with
  | Some (i, n) => Some {| index := Z.of_nat i; matched := take n (drop i input) |}
  | None => None
  end.
Proof.
  unfold exec, create; simpl.
  assert ((strlen input <? 0) = false) as ->
    by (unfold strlen; apply Z.ltb_ge; lia).
  simpl. change (Z.to_nat 0) with 0%nat. rewrite drop_0.
  by destruct (scan p 0 input) as [[i n]|].
Qed.

(** C8. [getNextMatchBounds(pattern, text)] builds its [RegExp] object afresh
    (the search starts at position 0, whatever [lastIndex] any other object
    was left with) and its result is determined by its two arguments: [None]
    exactly when the pattern occurs nowhere in the text, and otherwise the
    bounds [(start, end)] of the leftmost occurrence, with
    [0 <= start <= end <= length text] and [end - start] the length of the
    matched text. *)
Theorem getNextMatchBounds_first_occurrence (p : pattern) (input : jsstring) :
  (lastIndex (RegExp.create p) = 0 /\
   getNextMatchBounds p input
   = (fun m => (index m, index m + strlen (matched m)))
       <$> snd (RegExp.exec (RegExp.create p) input) /\
   forall p' input', p' = p -> input' = input ->
     getNextMatchBounds p' input' = getNextMatchBounds p input) /\
  (getNextMatchBounds p input = None <->
   forall i w, ~ occursAt p input i w) /\
  (forall a b, getNextMatchBounds p input = Some (a, b) ->
     0 <= a <= b /\ b <= strlen input /\
     occursAt p input (Z.to_nat a) (substring a b input) /\
     b - a = strlen (substring a b input) /\
     forall i w, occursAt p input i w -> (Z.to_nat a <= i)%nat).
Proof.
  split; [|split].
  - split; [reflexivity|]. split; [|by intros p' input' -> ->].
    rewrite getNextMatchBounds_scan, exec_create.
    destruct (scan p 0 input) as [[i n]|] eqn:Hs; [|reflexivity].
    destruct (scan_Some _ _ _ _ _ Hs) as (_ & Hlen & _).
    simpl. unfold strlen. rewrite length_take, length_drop.
    do 3 f_equal. lia.
  - split; [apply getNextMatchBounds_None_absent|apply getNextMatchBounds_absent].
  - intros a b Hb.
    destruct (getNextMatchBounds_Some _ _ _ _ Hb)
      as (i & n & -> & -> & Hlen & Hat & Hbefore).
    assert (Hsub : substring (Z.of_nat i) (Z.of_nat (i + n)) input
                   = take n (drop i input)).
    { rewrite substring_take_drop by (unfold strlen; lia).
      rewrite Nat2Z.id. f_equal. lia. }
    rewrite Hsub, Nat2Z.id.
    split; [lia|]. split; [unfold strlen; lia|].
    split; [apply matchHere_occursAt; [lia|exact Hat]|].
    split; [unfold strlen; rewrite length_take, length_drop; lia|].
    intros k w Hocc. destruct (le_lt_dec i k) as [|Hlt]; [assumption|].
    pose proof (occursAt_matchHere _ _ _ _ Hocc) as [m Hm].
    rewrite (Hbefore k Hlt) in Hm. discriminate.
Qed.

(** A [RegExp] object that is kept and searched again resumes at its
    [lastIndex]: the second search of the same text gives another result.
    This is the state [getNextMatchBounds] does not have. *)
Example exec_resumes_at_lastIndex :
  let r0 := RegExp.create definitionSourcePattern in
  let header := lit "From A:" ++ [LF; LF] in
  let '(r1, first) := RegExp.exec r0 header in
  let '(r2, second) := RegExp.exec r1 header in
  (index <$> first, lastIndex r1, index <$> second, lastIndex r2)
  = (Some 0, 9, None, 0)
  /\ getNextMatchBounds definitionSourcePattern header = Some (0, 9).
Proof. vm_compute. split; reflexivity. Qed.

End Bounds.

(** ** The header-stripping loop *)

Section Loop.

Lemma stripSources_unfold definitions :
  stripSources definitions =
  match stripStep definitions with
  | Some next => stripSources next
  | None => definitions
  end.
Proof.
  rewrite stripSources_equation_1.
  destruct (inspect (stripStep definitions)) as [[next|] E].
  - rewrite stripSources_clause_1_equation_1, E. reflexivity.
  - rewrite stripSources_clause_1_equation_2, E. reflexivity.
Qed.

Lemma stripSources_fixed definitions :
  stripStep definitions = None -> stripSources definitions = definitions.
Proof. intros H. rewrite stripSources_unfold, H. reflexivity. Qed.

Lemma stripSources_run : forall (bound : nat) definitions,
  (length definitions < bound)%nat ->
  exists n, (9 * n <= length definitions)%nat /\
            stripIter n definitions = Some (stripSources definitions) /\
            stripStep (stripSources definitions) = None.
Proof.
  induction bound as [|bound IH]; intros d Hlt; [lia|].
  rewrite stripSources_unfold.
  destruct (stripStep d) as [next|] eqn:Hstep.
  - pose proof (stripStep_shorter _ _ Hstep) as Hshort.
    destruct (IH next ltac:(lia)) as (n & Hn & Hiter & Hstop).
    exists (S n). split; [lia|]. split; [|exact Hstop].
    simpl. rewrite Hstep. exact Hiter.
  - exists O. split; [lia|]. split; [reflexivity|exact Hstep].
Qed.

(** C10. The header-stripping loop of [tryParseDefinitions] ends on every
    string: a pass that finds a header yields a string at least 9 code units
    shorter, so after at most [length / 9] passes no header is found and the
    loop is left; [tryParseDefinitions] therefore returns on every input,
    [null] exactly when the marker is not found. *)
Theorem stripSources_terminates (definitions : jsstring) :
  (forall next, stripStep definitions = Some next ->
     (length next + 9 <= length definitions)%nat) /\
  (exists n, (9 * n <= length definitions)%nat /\
     stripIter n definitions = Some (stripSources definitions) /\
     stripStep (stripSources definitions) = None) /\
  (tryParseDefinitions definitions = None <->
   getNextMatchBounds definitionFoundPattern definitions = None) /\
  (tryParseDefinitions definitions = None \/
   exists result, tryParseDefinitions definitions = Some result).
Proof.
  split; [apply stripStep_shorter|].
  split; [apply (stripSources_run (S (length definitions))); lia|].
  unfold tryParseDefinitions.
  destruct (getNextMatchBounds definitionFoundPattern definitions) as [mb|].
  - split; [split; discriminate|]. right. eauto.
  - split; [tauto|]. left. reflexivity.
Qed.

End Loop.

(** ** Splitting and joining *)

Section Split.

Lemma startsWith_app sep s :
  startsWith sep s = true <-> exists rest, s = sep ++ rest.
Proof.
  revert s. induction sep as [|a sep IH]; intros s; simpl.
  - split; [eauto|done].
  - destruct s as [|b s]; [split; [done|intros [? ?]; done]|].
    rewrite andb_true_iff, N.eqb_eq, IH. split.
    + intros [-> [rest ->]]. eauto.
    + intros [rest H]. inversion H; subst. eauto.
Qed.

Lemma splitFrom_skip sep : forall s k cur,
  (k <= length s)%nat -> splitFrom sep k cur s = splitFrom sep 0 cur (drop k s).
Proof.
  induction s as [|c s IH]; intros k cur Hk.
  - destruct k; [reflexivity|simpl in Hk; lia].
  - destruct k as [|k]; [reflexivity|]. simpl. apply IH. simpl in Hk. lia.
Qed.

Lemma splitFrom_cut sep cur rest :
  sep <> [] ->
  splitFrom sep 0 cur (sep ++ rest) = rev cur :: splitFrom sep 0 [] rest.
Proof.
  intros Hne. destruct sep as [|a sep]; [done|].
  change ((a :: sep) ++ rest) with (a :: (sep ++ rest)).
  cbn [splitFrom].
  assert (startsWith (a :: sep) (a :: sep ++ rest) = true) as ->
    by (apply startsWith_app; eauto).
  f_equal. rewrite splitFrom_skip by (rewrite length_app; simpl; lia).
  simpl. rewrite Nat.sub_0_r, drop_app_length. reflexivity.
Qed.

Lemma join_cons sep p parts :
  parts <> [] -> join sep (p :: parts) = p ++ sep ++ join sep parts.
Proof. destruct parts; [done|reflexivity]. Qed.

Lemma splitFrom_join sep : sep <> [] -> forall (bound : nat) s cur,
  (length s < bound)%nat -> join sep (splitFrom sep 0 cur s) = rev cur ++ s.
Proof.
  intros Hne. induction bound as [|bound IH]; intros s cur Hlt; [lia|].
  destruct s as [|c s]; [simpl; by rewrite app_nil_r|].
  destruct (startsWith sep (c :: s)) eqn:Hsw.
  - apply startsWith_app in Hsw as [rest Hrest]. rewrite Hrest.
    rewrite splitFrom_cut by assumption.
    rewrite join_cons.
    + rewrite (IH rest []); [reflexivity|].
      apply (f_equal length) in Hrest. rewrite length_app in Hrest.
      destruct sep; [done|]. simpl in *. lia.
    + pose proof (splitFrom_nonempty sep rest 0 []) as Hlen.
      destruct (splitFrom sep 0 [] rest); [simpl in Hlen; lia|done].
  - cbn [splitFrom]. rewrite Hsw. rewrite IH by (simpl in Hlt; lia).
    simpl. by rewrite <- app_assoc.
Qed.

(** Joining the segments with the separator gives the text back. *)
Lemma join_split sep s : sep <> [] -> join sep (split sep s) = s.
Proof.
  intros Hne. unfold split.
  by rewrite (splitFrom_join sep Hne (S (length s))) by lia.
Qed.

Lemma startsWith_longer sep t x :
  startsWith sep t = true -> startsWith sep (t ++ x) = true.
Proof.
  rewrite !startsWith_app. intros [rest ->]. exists (rest ++ x).
  by rewrite <- app_assoc.
Qed.

Lemma includes_nowhere sep t :
  (forall j, (j <= length t)%nat -> startsWith sep (drop j t) = false) ->
  includes t sep = false.
Proof.
  induction t as [|c t IH]; intros H;
    pose proof (H O ltac:(simpl; lia)) as H0; simpl in H0 |- *; rewrite H0.
  - reflexivity.
  - simpl. apply IH. intros j Hj. apply (H (S j)). simpl. lia.
Qed.

Lemma segment_clean sep cur s :
  sep <> [] ->
  (forall j, (j < length cur)%nat ->
     startsWith sep (drop j (rev cur ++ s)) = false) ->
  includes (rev cur) sep = false.
Proof.
  intros Hne Hinv. apply includes_nowhere. intros j Hj.
  rewrite length_rev in Hj.
  destruct (decide (j = length cur)) as [->|Hlt].
  - rewrite <- length_rev, drop_all. by destruct sep.
  - destruct (startsWith sep (drop j (rev cur))) eqn:E; [|reflexivity].
    apply (startsWith_longer _ _ s) in E.
    rewrite <- drop_app_le in E by (rewrite length_rev; lia).
    rewrite Hinv in E by lia. discriminate.
Qed.

Lemma splitFrom_clean sep : sep <> [] -> forall (bound : nat) s cur,
  (length s < bound)%nat ->
  (forall j, (j < length cur)%nat ->
     startsWith sep (drop j (rev cur ++ s)) = false) ->
  Forall (fun segment => includes segment sep = false) (splitFrom sep 0 cur s).
Proof.
  intros Hne. induction bound as [|bound IH]; intros s cur Hlt Hinv; [lia|].
  destruct s as [|c s].
  - simpl. constructor; [|constructor]. by apply (segment_clean sep cur []).
  - destruct (startsWith sep (c :: s)) eqn:Hsw.
    + pose proof Hsw as Hsw'. apply startsWith_app in Hsw' as [rest Hrest].
      rewrite Hrest, splitFrom_cut by assumption. constructor.
      * apply (segment_clean sep cur (c :: s)); assumption.
      * apply IH; [|simpl; intros; lia].
        apply (f_equal length) in Hrest. rewrite length_app in Hrest.
        destruct sep; [done|]. simpl in *. lia.
    + cbn [splitFrom]. rewrite Hsw. apply IH; [simpl in Hlt; lia|].
      intros j Hj. simpl rev. rewrite <- app_assoc. simpl app at 2.
      simpl in Hj. destruct (decide (j = length cur)) as [->|Hne'].
      * by rewrite <- length_rev, drop_app_length.
      * apply Hinv. lia.
Qed.

(** No segment contains the separator. *)
Lemma split_clean sep s :
  sep <> [] -> Forall (fun segment => includes segment sep = false) (split sep s).
Proof.
  intros Hne. apply (splitFrom_clean sep Hne (S (length s))); [lia|].
  simpl. intros; lia.
Qed.

End Split.

(** ** Classification of the dictionary output *)

Section Classification.
Import RegExp RegExpFacts.

(** The call of a parser returns the parser's value, and logs one error
    exactly when that value is [null]. *)
Lemma callTryParseDefinitions_run text w :
  callTryParseDefinitions text w =
  match tryParseDefinitions text with
  | Some definition => (Normal (Some definition), w)
  | None => (Normal None, logged [ConsoleError definitionFormatMsg] w)
  end.
Proof.
  unfold callTryParseDefinitions, tryParseDefinitions.
  destruct (getNextMatchBounds definitionFoundPattern text); reflexivity.
Qed.

Lemma callTryParseWordSuggestions_run text w :
  callTryParseWordSuggestions text w =
  match tryParseWordSuggestions text with
  | Some suggestions => (Normal (Some suggestions), w)
  | None => (Normal None, logged [ConsoleError suggestionFormatMsg] w)
  end.
Proof.
  unfold callTryParseWordSuggestions, tryParseWordSuggestions.
  destruct (getNextMatchBounds noDefinitionPattern text); reflexivity.
Qed.

(** A list of suggestions is never empty: [split] yields at least one
    segment. *)
Lemma tryParseWordSuggestions_length text suggestions :
  tryParseWordSuggestions text = Some suggestions ->
  (length suggestions <? 1)%nat = false.
Proof.
  unfold tryParseWordSuggestions.
  destruct (getNextMatchBounds noDefinitionPattern text) as [matchBounds|];
    [|discriminate].
  intros [= <-]. apply Nat.ltb_ge.
  apply split_nonempty.
Qed.

(** [addWordEntry] is the dictionary call followed by [dispatch]. *)
Lemma addWordEntry_dispatch settings word w r w1 :
  getDictionaryResult settings word w = (Normal r, w1) ->
  addWordEntry settings word w = dispatch settings word r w1.
Proof.
  intros H. unfold addWordEntry, dispatch, parse.
  unfold mbind at 1. unfold M_bind at 1. rewrite H.
  destruct (falsy r); [reflexivity|].
  unfold mbind at 1. unfold M_bind at 1.
  rewrite callTryParseDefinitions_run.
  destruct (tryParseDefinitions (default [] r)); [reflexivity|].
  unfold mbind at 1. unfold M_bind at 1.
  rewrite callTryParseWordSuggestions_run.
  destruct (tryParseWordSuggestions (default [] r)) as [l|] eqn:Hl;
    [|reflexivity].
  by rewrite (tryParseWordSuggestions_length _ _ Hl).
Qed.

End Classification.

(** ** The process invoker *)

Section Invoker.

Lemma logged_logged es1 es2 w :
  logged es2 (logged es1 w) = logged (es1 ++ es2) w.
Proof. unfold logged; simpl. by rewrite <- app_assoc. Qed.

Lemma getDictionaryResult_run settings query w :
  getDictionaryResult settings query w =
  (Normal (invokeResult (processes w (queryCommand settings query))),
   logged (Spawn (queryCommand settings query)
           :: invokeLog (queryCommand settings query)
                        (processes w (queryCommand settings query))) w).
Proof.
  unfold getDictionaryResult, tryCatch, execSync, mbind, M_bind, awaitProcess,
    mret, M_ret, emit, invokeLog. simpl.
  destruct (processes w (queryCommand settings query))
    as [code out err|out err|reason]; simpl.
  - destruct code as [|c|c]; simpl.
    + reflexivity.
    + destruct (decide (Some (Z.pos c) = Some 21)) as [E|E].
      * inversion E; subst. reflexivity.
      * destruct (decide (Z.pos c = 0)); [done|].
        destruct (decide (Z.pos c = 21)); [congruence|].
        simpl. by rewrite logged_logged.
    + destruct (decide (Some (Z.neg c) = Some 21)) as [E|E]; [done|].
      destruct (decide (Z.neg c = 0)); [done|].
      destruct (decide (Z.neg c = 21)); [done|].
      simpl. by rewrite logged_logged.
  - destruct (decide (None = Some 21)); [done|].
    simpl. by rewrite logged_logged.
  - destruct (decide (None = Some 21)); [done|].
    simpl. by rewrite logged_logged.
Qed.

Lemma invokeLog_no_spawn command p :
  forallb (fun e => negb (isSpawn e)) (invokeLog command p) = true.
Proof.
  unfold invokeLog. destruct (invokeResult p); [reflexivity|].
  destruct p; reflexivity.
Qed.

(** C6. [getDictionaryResult] never throws and runs the dict command once.
    It returns stdout when the process exits with status 0, the text of
    stderr when it exits with status 21, and [null] for every other exit
    status, a killed process or a failed spawn; [addWordEntry] hands what is
    returned on to the parser, the stderr text of exit 21 like a stdout. *)
Theorem getDictionaryResult_exit_status
  (settings : ObsidianLexiconSettings) (query : jsstring) (w : World) :
  exists r w1 log,
    getDictionaryResult settings query w = (Normal r, w1) /\
    files w1 = files w /\ pendingWrites w1 = pendingWrites w /\
    processes w1 = processes w /\
    trace w1 = trace w ++ Spawn (queryCommand settings query) :: log /\
    forallb (fun e => negb (isSpawn e)) log = true /\
    (forall out err,
       processes w (queryCommand settings query) = Exited 0 out err ->
       r = Some out /\ log = []) /\
    (forall out err,
       processes w (queryCommand settings query) = Exited 21 out err ->
       r = Some err /\ log = []) /\
    (forall code out err,
       processes w (queryCommand settings query) = Exited code out err ->
       code <> 0 -> code <> 21 -> r = None) /\
    (forall out err,
       processes w (queryCommand settings query) = Killed out err -> r = None) /\
    (forall reason,
       processes w (queryCommand settings query) = SpawnFailed reason ->
       r = None) /\
    addWordEntry settings query w = dispatch settings query r w1.
Proof.
  pose proof (getDictionaryResult_run settings query w) as Hrun.
  eexists _, _, _. split; [exact Hrun|].
  split; [reflexivity|]. split; [reflexivity|]. split; [reflexivity|].
  split; [reflexivity|]. split; [apply invokeLog_no_spawn|].
  split; [intros out err ->; split; reflexivity|].
  split; [intros out err ->; split; reflexivity|].
  split.
  { intros code out err -> H0 H21. simpl.
    destruct (decide (code = 0)); [done|]. by destruct (decide (code = 21)). }
  split; [by intros out err ->|]. split; [by intros reason ->|].
  apply addWordEntry_dispatch, Hrun.
Qed.

End Invoker.

(** ** The entry writer *)

Section Writer.

Lemma createWordNote_present path word text w :
  is_Some (files w !! path) ->
  createWordNote path word text w =
  (Normal tt,
   logged [Notice (alreadyExistsMsg word); ConsoleLog (alreadyExistsMsg word)] w).
Proof.
  intros Hex. unfold createWordNote, existsSync, mbind, M_bind, emit.
  rewrite bool_decide_eq_true_2 by assumption.
  by rewrite logged_logged.
Qed.

Lemma createWordNote_absent path word text w :
  files w !! path = None ->
  createWordNote path word text w = writeFile path text word w.
Proof.
  intros Hno. unfold createWordNote, existsSync, mbind, M_bind.
  rewrite bool_decide_eq_false_2; [reflexivity|].
  rewrite Hno. by intros [? ?].
Qed.

(** The claim of C5 fails as it is stated.  On an empty vault, when the write
    of the first call ends in an error (the callback's [err] branch), the
    second call for the same path finds no file: it reports nothing and queues
    a write of its own.  And two calls made before the first write has
    completed both queue a write, after which the file holds first the one
    text and then the other. *)
Lemma createWordNote_second_call_may_write :
  let path := lit "words/cat.md" in
  let w0 := emptyWorld (fun _ => SpawnFailed []) in
  let w1 := snd (createWordNote path (lit "cat") (lit "first") w0) in
  let w2 := snd (completeWrite (Some (lit "ENOENT")) w1) in
  let w3 := snd (createWordNote path (lit "cat") (lit "second") w2) in
  let w4 := snd (completeWrite None w3) in
  let v1 := snd (createWordNote path (lit "cat") (lit "second") w1) in
  let v2 := snd (completeWrite None v1) in
  let v3 := snd (completeWrite None v2) in
  (trace w3 = [ConsoleError (lit "ENOENT")] /\
   pendingWrites w3
   = [{| target := path; data := lit "second"; forWord := lit "cat" |}] /\
   files w4 !! path = Some (lit "second")) /\
  (files v2 !! path = Some (lit "first") /\
   files v3 !! path = Some (lit "second")).
Proof. vm_compute. repeat split; reflexivity. Qed.

(** C5 (amended). When a file exists at the path, [createWordNote] reports that
    the entry already exists, queues no write and leaves every file as it is.
    When no write is outstanding and the write a first call queued has
    completed without error, a second call for the same path reports that the
    entry already exists and writes nothing: the file keeps the content it had
    after the first call, which is the first text, or the earlier content
    when the file was there before. *)
Theorem createWordNote_existing_file_kept
  (path word text : jsstring) (w : World)
  (Hexists : is_Some (files w !! path)) :
  (exists w',
     createWordNote path word text w = (Normal tt, w') /\
     files w' = files w /\ pendingWrites w' = pendingWrites w /\
     trace w' = trace w ++ [Notice (alreadyExistsMsg word);
                            ConsoleLog (alreadyExistsMsg word)]) /\
  (forall (w0 : World) word1 text1,
     pendingWrites w0 = [] ->
     w = snd (completeWrite None (snd (createWordNote path word1 text1 w0))) ->
     files w !! path = Some (default text1 (files w0 !! path)) /\
     pendingWrites w = [] /\
     files (snd (createWordNote path word text w)) = files w /\
     pendingWrites (snd (createWordNote path word text w)) = []).
Proof.
  split.
  - eexists. split; [by apply createWordNote_present|]. by simpl.
  - intros w0 word1 text1 Hidle Hw.
    assert (Hsecond : files (snd (createWordNote path word text w)) = files w
                      /\ pendingWrites (snd (createWordNote path word text w))
                         = pendingWrites w).
    { by rewrite (createWordNote_present _ _ _ _ Hexists). }
    destruct Hsecond as [Hf Hp]. rewrite Hf, Hp. clear Hf Hp.
    subst w. destruct (files w0 !! path) as [old|] eqn:Hold.
    + rewrite (createWordNote_present path word1 text1 w0) by (rewrite Hold; eauto).
      unfold completeWrite; simpl. rewrite Hidle. simpl. by rewrite Hold.
    + rewrite (createWordNote_absent path word1 text1 w0 Hold).
      unfold writeFile, completeWrite; simpl. rewrite Hidle. simpl.
      by rewrite lookup_insert_eq.
Qed.

Lemma createWordNote_existing_file_kept_witness :
  let path := lit "words/cat.md" in
  let w0 := emptyWorld (fun _ => SpawnFailed []) in
  let w := snd (completeWrite None (snd (createWordNote path (lit "cat") (lit "first") w0))) in
  is_Some (files w !! path) /\
  files w !! path = Some (lit "first") /\
  files (snd (createWordNote path (lit "cat") (lit "second") w)) = files w.
Proof.
  assert (Hex : is_Some
            (files (snd (completeWrite None
               (snd (createWordNote (lit "words/cat.md") (lit "cat") (lit "first")
                       (emptyWorld (fun _ => SpawnFailed [])))))) !! lit "words/cat.md")).
  { vm_compute. eauto. }
  split; [exact Hex|].
  pose proof (createWordNote_existing_file_kept (lit "words/cat.md") (lit "cat")
                (lit "second") _ Hex) as [_ H].
  destruct (H (emptyWorld (fun _ => SpawnFailed [])) (lit "cat") (lit "first")
              eq_refl eq_refl) as (H1 & _ & H3 & _).
  split; [exact H1|exact H3].
Defined.

End Writer.

(** ** The suggestion picker *)

Section Picker.

Lemma includes_substring s q :
  includes s q = true <-> exists pre post, s = pre ++ q ++ post.
Proof.
  induction s as [|c s IH]; simpl.
  - rewrite orb_false_r, startsWith_app. split.
    + intros [rest ->]. by exists [], rest.
    + intros (pre & post & H). destruct pre; [|done]. eauto.
  - rewrite orb_true_iff, startsWith_app, IH. split.
    + intros [[rest ->]|(pre & post & ->)].
      * by exists [], rest.
      * by exists (c :: pre), post.
    + intros (pre & post & H). destruct pre as [|d pre].
      * left. eauto.
      * right. inversion H; subst. eauto.
Qed.

(** C7. [getSuggestions] keeps, in their order, exactly the suggestions whose
    lower-cased text has the lower-cased query as a literal substring; the
    query is compared code unit by code unit, whatever characters it holds. *)
Theorem getSuggestions_literal_filter
  (toLowerCase : jsstring -> jsstring)
  (suggestions : list jsstring) (query : jsstring) :
  sublist (getSuggestions toLowerCase suggestions query) suggestions /\
  (forall s,
     s ∈ getSuggestions toLowerCase suggestions query <->
     s ∈ suggestions /\
     exists pre post, toLowerCase s = pre ++ toLowerCase query ++ post) /\
  (forall s rest,
     getSuggestions toLowerCase (s :: rest) query =
     if includes (toLowerCase s) (toLowerCase query)
     then s :: getSuggestions toLowerCase rest query
     else getSuggestions toLowerCase rest query) /\
  getSuggestions toLowerCase [] query = [].
Proof.
  unfold getSuggestions. split; [apply sublist_filter|].
  split; [|split; [|reflexivity]].
  - intros s. rewrite list_elem_of_filter, includes_substring. tauto.
  - intros s rest. rewrite filter_cons.
    destruct (includes (toLowerCase s) (toLowerCase query)); by case_decide.
Qed.

(** Characters that are special in a pattern are matched as themselves: the
    query [.+] selects only the suggestion that contains a dot and a plus. *)
Example getSuggestions_special_characters :
  getSuggestions asciiLower [lit "Cat"; lit "a.+b"; lit "scatter"] (lit ".+")
  = [lit "a.+b"]
  /\ getSuggestions asciiLower [lit "Cat"; lit "dog"; lit "sCATter"] (lit "cAt")
     = [lit "Cat"; lit "sCATter"].
Proof. vm_compute. split; reflexivity. Qed.

End Picker.

(** ** Trimming *)

Section Trim.

Lemma blank_forallb s : forallb isWhiteSpace s = true <-> blank s.
Proof.
  unfold blank. induction s as [|c s IH]; simpl.
  - split; [constructor|reflexivity].
  - rewrite andb_true_iff, IH, Forall_cons. reflexivity.
Qed.

Lemma trimStart_blank l s : blank l -> trimStart (l ++ s) = trimStart s.
Proof. induction 1 as [|c l Hc _ IH]; simpl; [|rewrite Hc]; auto. Qed.

Lemma trimStart_blank_nil l : blank l -> trimStart l = [].
Proof. intros H. rewrite <- (app_nil_r l). by rewrite trimStart_blank. Qed.

Lemma trimStart_head c s : isWhiteSpace c = false -> trimStart (c :: s) = c :: s.
Proof. intros H. simpl. by rewrite H. Qed.

Lemma trimStart_decomp s :
  exists l, blank l /\ s = l ++ trimStart s /\
    (trimStart s = [] \/
     exists c t, trimStart s = c :: t /\ isWhiteSpace c = false).
Proof.
  induction s as [|c s (l & Hl & Hs & Hhead)].
  - exists []. repeat split; [constructor|by left].
  - simpl. destruct (isWhiteSpace c) eqn:Hc.
    + exists (c :: l). repeat split; [by constructor|simpl; by f_equal|exact Hhead].
    + exists []. repeat split; [constructor|]. right. eauto.
Qed.

Lemma trimStart_snoc s c :
  isWhiteSpace c = false -> trimStart (s ++ [c]) = trimStart s ++ [c].
Proof.
  intros Hc. induction s as [|d s IH]; simpl; [by rewrite Hc|].
  destruct (isWhiteSpace d); auto.
Qed.

Lemma trimStart_app_keep s r :
  trimStart s <> [] -> trimStart (s ++ r) = trimStart s ++ r.
Proof.
  induction s as [|d s IH]; simpl; [done|].
  destruct (isWhiteSpace d); auto.
Qed.

Lemma blank_rev s : blank s -> blank (rev s).
Proof. apply List.Forall_rev. Qed.

Lemma trimEnd_blank s r : blank r -> trimEnd (s ++ r) = trimEnd s.
Proof.
  intros Hr. unfold trimEnd. rewrite rev_app_distr.
  by rewrite trimStart_blank by by apply blank_rev.
Qed.

Lemma trimEnd_last s c : isWhiteSpace c = false -> trimEnd (s ++ [c]) = s ++ [c].
Proof.
  intros Hc. unfold trimEnd. rewrite rev_app_distr. simpl. rewrite Hc.
  change (c :: rev s) with (rev [c] ++ rev s).
  by rewrite <- rev_app_distr, rev_involutive.
Qed.

Lemma trimEnd_head c s :
  isWhiteSpace c = false -> exists t, trimEnd (c :: s) = c :: t.
Proof.
  intros Hc. unfold trimEnd. simpl rev at 2.
  rewrite trimStart_snoc by assumption. rewrite rev_app_distr. simpl. eauto.
Qed.

Lemma trimEnd_decomp s :
  exists r, blank r /\ s = trimEnd s ++ r /\
    (trimEnd s = [] \/
     exists t c, trimEnd s = t ++ [c] /\ isWhiteSpace c = false).
Proof.
  destruct (trimStart_decomp (rev s)) as (l & Hl & Hs & Hhead).
  exists (rev l). split; [by apply blank_rev|]. unfold trimEnd. split.
  - rewrite <- rev_app_distr, <- Hs. by rewrite rev_involutive.
  - destruct Hhead as [->|(c & t & -> & Hc)]; [by left|].
    right. exists (rev t), c. by simpl.
Qed.

(** A string is its trimmed text between two runs of whitespace; the trimmed
    text, unless empty, begins and ends with a character that is not
    whitespace. *)
Lemma trim_decomp x :
  exists l r, blank l /\ blank r /\ x = l ++ trim x ++ r /\
    (trim x = [] \/
     exists t c, trim x = t ++ [c] /\ isWhiteSpace c = false /\
       trimStart (t ++ [c]) = t ++ [c]).
Proof.
  destruct (trimStart_decomp x) as (l & Hl & Hx & Hhead).
  destruct (trimEnd_decomp (trimStart x)) as (r & Hr & Hy & Hlast).
  exists l, r. unfold trim. repeat split; try assumption.
  - by rewrite <- Hy.
  - destruct Hlast as [E|(t & c & E & Hc)]; [by left|].
    right. exists t, c. repeat split; try assumption.
    destruct Hhead as [E0|(d & u & E0 & Hd)].
    + rewrite E0 in E. by destruct t.
    + rewrite E0 in E. destruct (trimEnd_head d u Hd) as [t' Ht'].
      rewrite Ht' in E. rewrite <- E. by apply trimStart_head.
Qed.

Lemma trim_blank_context l s r : blank l -> blank r -> trim (l ++ s ++ r) = trim s.
Proof.
  intros Hl Hr. unfold trim. rewrite trimStart_blank by assumption.
  destruct (trimStart s) as [|c t] eqn:E.
  - destruct (trimStart_decomp s) as (l' & Hl' & Hs & _). rewrite E, app_nil_r in Hs.
    subst s. rewrite trimStart_blank by assumption.
    by rewrite trimStart_blank_nil.
  - rewrite trimStart_app_keep by (by rewrite E).
    rewrite E. by apply trimEnd_blank.
Qed.

Lemma trim_blank s : blank s -> trim s = [].
Proof. intros H. unfold trim. by rewrite trimStart_blank_nil. Qed.

Lemma trim_idemp x : trim (trim x) = trim x.
Proof.
  destruct (trim_decomp x) as (l & r & _ & _ & _ & [->|(t & c & -> & Hc & Hs)]);
    [reflexivity|].
  unfold trim at 1. rewrite Hs. by apply trimEnd_last.
Qed.

End Trim.

(** ** The words of the three patterns *)

Section Markers.
Import RegExp RegExpFacts.

Lemma Matches_lit_inv c p w :
  Matches ((Lit c, Once) :: p) w -> exists w', w = c :: w' /\ Matches p w'.
Proof.
  intros H. apply Matches_once_inv in H as (d & w' & -> & Hd & H).
  simpl in Hd. apply N.eqb_eq in Hd as ->. eauto.
Qed.

Lemma Matches_lit_intro c p w : Matches p w -> Matches ((Lit c, Once) :: p) (c :: w).
Proof. intros H. constructor; [simpl; apply N.eqb_refl|exact H]. Qed.

Lemma definitionSourcePattern_words w :
  Matches definitionSourcePattern w <->
  exists source, source <> [] /\ lineText source /\ w = sourceHeader source.
Proof.
  unfold definitionSourcePattern, sourceHeader. split.
  - intros H. apply Matches_text in H as (r1 & -> & H). cbn [app] in H.
    apply Matches_plus_inv in H as (run & r2 & Hne & Hall & -> & H).
    apply Matches_text in H as (r3 & -> & H).
    apply Matches_lit_inv in H as (r4 & -> & H).
    apply Matches_lit_inv in H as (r5 & -> & H).
    apply Matches_nil_inv in H as ->. exists run. by repeat split.
  - intros (run & Hne & Hall & ->). apply Matches_text. eexists; split; [done|].
    cbn [app]. change [COLON; LF; LF] with (lit ":" ++ [LF; LF]).
    apply Matches_plus_intro; try assumption.
    apply Matches_text. eexists; split; [done|].
    apply Matches_lit_intro, Matches_lit_intro. constructor.
Qed.

Lemma definitionFoundPattern_words w :
  Matches definitionFoundPattern w <->
  exists count plural, count <> [] /\ digits count /\ w = foundMarker count plural.
Proof.
  unfold definitionFoundPattern, foundMarker. split.
  - intros H. cbn [app] in H.
    apply Matches_plus_inv in H as (run & r2 & Hne & Hall & -> & H).
    apply Matches_text in H as (r3 & -> & H). cbn [app] in H.
    apply Matches_opt_iff in H as [H|(c & r4 & -> & Hc & H)].
    + apply Matches_text in H as (r5 & -> & H).
      apply Matches_lit_inv in H as (r6 & -> & H).
      apply Matches_lit_inv in H as (r7 & -> & H).
      apply Matches_nil_inv in H as ->. exists run, false. by repeat split.
    + simpl in Hc. apply N.eqb_eq in Hc as ->.
      apply Matches_text in H as (r5 & -> & H).
      apply Matches_lit_inv in H as (r6 & -> & H).
      apply Matches_lit_inv in H as (r7 & -> & H).
      apply Matches_nil_inv in H as ->. exists run, true. by repeat split.
  - intros (run & plural & Hne & Hall & ->). cbn [app].
    apply Matches_plus_intro; try assumption.
    apply Matches_text. eexists; split; [done|]. cbn [app].
    apply Matches_opt_iff. destruct plural.
    + right. exists 115%N, (lit " found" ++ [LF; LF]). repeat split.
      apply Matches_text. eexists; split; [done|].
      apply Matches_lit_intro, Matches_lit_intro. constructor.
    + left. apply Matches_text. eexists; split; [done|].
      apply Matches_lit_intro, Matches_lit_intro. constructor.
Qed.

Lemma noDefinitionPattern_words w :
  Matches noDefinitionPattern w <->
  exists term source,
    term <> [] /\ lineText term /\ source <> [] /\ lineText source /\
    w = notFoundMarker term source.
Proof.
  unfold noDefinitionPattern, notFoundMarker. split.
  - intros H. apply Matches_text in H as (r1 & -> & H). cbn [app] in H.
    apply Matches_lit_inv in H as (r2 & -> & H).
    apply Matches_plus_inv in H as (term & r3 & Hne & Hall & -> & H).
    apply Matches_lit_inv in H as (r4 & -> & H).
    apply Matches_text in H as (r5 & -> & H). cbn [app] in H.
    apply Matches_lit_inv in H as (r6 & -> & H).
    apply Matches_plus_inv in H as (src & r7 & Hne' & Hall' & -> & H).
    rewrite <- (app_nil_r (text ":  ")) in H.
    apply Matches_text in H as (r8 & -> & H).
    apply Matches_nil_inv in H as ->. rewrite app_nil_r.
    exists term, src. by repeat split.
  - intros (term & src & Hne & Hall & Hne' & Hall' & ->).
    apply Matches_text. eexists; split; [done|]. cbn [app].
    apply Matches_lit_intro.
    change (term ++ QUOTE :: ?x) with (term ++ [QUOTE] ++ x).
    apply Matches_plus_intro; try assumption.
    apply Matches_lit_intro.
    apply Matches_text. eexists; split; [done|]. cbn [app].
    apply Matches_lit_intro.
    apply Matches_plus_intro; try assumption.
    rewrite <- (app_nil_r (text ":  ")), <- (app_nil_r (lit ":  ")).
    apply Matches_text. eexists; split; [done|]. constructor.
Qed.

End Markers.

(** ** Headers and the whitespace around the text *)

Section Headers.
Import RegExp RegExpFacts.

Lemma source_unique a : forall b r r',
  lineText a -> lineText b ->
  a ++ COLON :: LF :: r = b ++ COLON :: LF :: r' -> a = b.
Proof.
  induction a as [|x a IH]; intros [|y b] r r' Ha Hb E; simpl in E.
  - reflexivity.
  - exfalso. inversion E as [[Hy E']]. subst y. inversion Hb as [|? ? _ Hb']; subst.
    destruct b as [|z b]; simpl in E'; [discriminate|].
    inversion E'; subst. inversion Hb' as [|? ? Hz _]. discriminate.
  - exfalso. inversion E as [[Hx E']]. subst x. inversion Ha as [|? ? _ Ha']; subst.
    destruct a as [|z a]; simpl in E'; [discriminate|].
    inversion E'; subst. inversion Ha' as [|? ? Hz _]. discriminate.
  - inversion E; subst. f_equal.
    inversion Ha; inversion Hb; subst. eapply IH; eauto.
Qed.

(** Where a header starts, the matcher consumes exactly that header. *)
Lemma header_matchHere s n :
  matchHere definitionSourcePattern s = Some n <->
  exists source rest,
    source <> [] /\ lineText source /\ s = sourceHeader source ++ rest /\
    n = length (sourceHeader source).
Proof.
  assert (Hfwd : forall s n, matchHere definitionSourcePattern s = Some n ->
    exists source rest,
      source <> [] /\ lineText source /\ s = sourceHeader source ++ rest /\
      n = length (sourceHeader source)).
  { clear. intros s n H. destruct (matchHere_sound _ _ _ H) as [Hl HM].
    apply definitionSourcePattern_words in HM as (source & Hne & Hline & Htake).
    exists source, (drop n s). repeat split; try assumption.
    - by rewrite <- Htake, take_drop.
    - rewrite <- Htake, length_take. lia. }
  split; [apply Hfwd|].
  intros (source & rest & Hne & Hline & -> & ->).
  assert (HM : Matches definitionSourcePattern (sourceHeader source))
    by (apply definitionSourcePattern_words; eauto).
  destruct (matchHere_complete _ _ HM rest) as [n Hn]. rewrite Hn.
  destruct (Hfwd _ _ Hn) as (source' & rest' & _ & Hline' & E & ->).
  unfold sourceHeader in E. rewrite <- !app_assoc in E.
  apply app_inv_head in E. simpl in E.
  by rewrite (source_unique _ _ _ _ Hline Hline' E).
Qed.

Lemma header_starts_with_F c s n :
  matchHere definitionSourcePattern (c :: s) = Some n -> c = 70%N.
Proof.
  intros H. apply header_matchHere in H as (source & rest & _ & _ & E & _).
  by inversion E.
Qed.

Lemma header_not_at_blank c s :
  isWhiteSpace c = true -> matchHere definitionSourcePattern (c :: s) = None.
Proof.
  intros Hc. destruct (matchHere _ _) eqn:E; [|reflexivity].
  apply header_starts_with_F in E. by subst c.
Qed.

Lemma scan_shift p : forall s i,
  scan p (S i) s = (fun jn => (S (fst jn), snd jn)) <$> scan p i s.
Proof.
  induction s as [|c s IH]; intros i; simpl.
  - by destruct (matchHere p []).
  - destruct (matchHere p (c :: s)); [reflexivity|]. apply IH.
Qed.

Lemma getNextMatchBounds_tail p c s :
  matchHere p (c :: s) = None ->
  getNextMatchBounds p (c :: s) =
  (fun ab => (fst ab + 1, snd ab + 1)) <$> getNextMatchBounds p s.
Proof.
  intros H. rewrite !getNextMatchBounds_scan. simpl scan at 1. rewrite H.
  rewrite scan_shift. destruct (scan p 0 s) as [[i n]|]; simpl; [|reflexivity].
  do 2 f_equal; lia.
Qed.

Lemma getNextMatchBounds_head p s n :
  matchHere p s = Some n -> getNextMatchBounds p s = Some (0, Z.of_nat n).
Proof.
  intros H. rewrite getNextMatchBounds_scan.
  destruct s; simpl; rewrite H; reflexivity.
Qed.

Lemma stripStep_tail c s :
  matchHere definitionSourcePattern (c :: s) = None ->
  stripStep (c :: s) = cons c <$> stripStep s.
Proof.
  intros H. unfold stripStep. rewrite (getNextMatchBounds_tail _ _ _ H).
  destruct (getNextMatchBounds definitionSourcePattern s) as [[a b]|] eqn:Hb;
    simpl; [|reflexivity].
  apply getNextMatchBounds_range in Hb as (Ha & Hab & Hbl).
  assert (Hlen : strlen (c :: s) = strlen s + 1) by (unfold strlen; simpl; lia).
  rewrite !substring_prefix, !substringFrom_drop by lia.
  replace (Z.to_nat (a + 1)) with (S (Z.to_nat a)) by lia.
  replace (Z.to_nat (b + 1)) with (S (Z.to_nat b)) by lia.
  reflexivity.
Qed.

Lemma stripStep_head s n :
  matchHere definitionSourcePattern s = Some n -> stripStep s = Some (drop n s).
Proof.
  intros H. unfold stripStep. rewrite (getNextMatchBounds_head _ _ _ H).
  destruct (matchHere_sound _ _ _ H) as [Hl _].
  rewrite substring_prefix, substringFrom_drop by (unfold strlen; lia).
  by rewrite Nat2Z.id.
Qed.

Lemma stripStep_blank r : blank r -> stripStep r = None.
Proof.
  induction 1 as [|c r Hc _ IH]; [reflexivity|].
  rewrite stripStep_tail by by apply header_not_at_blank.
  by rewrite IH.
Qed.

(** The text ends in [c], a character that is not whitespace, and blanks
    [r]; unless [c] is the colon of a header whose blank line is in [r], a
    header cannot reach into [r]. *)
Lemma header_local u c r :
  isWhiteSpace c = false -> blank r ->
  (c = COLON -> startsWith [LF; LF] r = false) ->
  matchHere definitionSourcePattern ((u ++ [c]) ++ r)
  = matchHere definitionSourcePattern (u ++ [c]).
Proof.
  intros Hc Hr Hend.
  destruct (matchHere definitionSourcePattern (u ++ [c])) as [n|] eqn:E.
  - apply header_matchHere in E as (source & rest & Hne & Hline & E & ->).
    apply header_matchHere. exists source, (rest ++ r).
    repeat split; try assumption. by rewrite E, <- app_assoc.
  - destruct (matchHere definitionSourcePattern ((u ++ [c]) ++ r)) as [n|] eqn:E';
      [exfalso|reflexivity].
    apply header_matchHere in E' as (source & rest & Hne & Hline & E' & ->).
    apply List.app_eq_app in E' as [l [[E1 E2]|[E1 E2]]].
    + assert (is_Some (matchHere definitionSourcePattern (u ++ [c]))) as [? ?];
        [|congruence].
      eexists. apply header_matchHere. exists source, l. by repeat split.
    + assert (Hl : blank (rev l)).
      { apply blank_rev. rewrite E2 in Hr. by apply Forall_app in Hr as [? _]. }
      apply (f_equal (@rev _)) in E1. unfold sourceHeader in E1.
      rewrite !rev_app_distr in E1. simpl in E1.
      destruct (rev l) as [|a1 [|a2 [|a3 t]]] eqn:El; simpl in E1.
      * inversion E1; subst. discriminate.
      * inversion E1; subst. discriminate.
      * inversion E1; subst.
        assert (l = [LF; LF]) as ->.
        { rewrite <- (rev_involutive l), El. reflexivity. }
        specialize (Hend eq_refl). simpl in Hend. discriminate.
      * inversion E1; subst. inversion Hl as [|? ? _ Hl1]; subst.
        inversion Hl1 as [|? ? _ Hl2]; subst.
        inversion Hl2 as [|? ? Hcolon _]; subst. discriminate.
Qed.

Lemma header_before_last u c n :
  isWhiteSpace c = false ->
  matchHere definitionSourcePattern (u ++ [c]) = Some n -> (n <= length u)%nat.
Proof.
  intros Hc H. apply header_matchHere in H as (source & rest & _ & _ & E & ->).
  destruct (decide (rest = [])) as [->|Hrest].
  - exfalso. rewrite app_nil_r in E. unfold sourceHeader in E.
    change [COLON; LF; LF] with ([COLON; LF] ++ [LF]) in E.
    rewrite !app_assoc in E. apply app_inj_tail in E as [_ ->]. discriminate.
  - apply (f_equal length) in E. unfold sourceHeader in *.
    rewrite !length_app in *. destruct rest; [done|]. simpl in *. lia.
Qed.

Lemma stripStep_last c : isWhiteSpace c = false -> stripStep [c] = None.
Proof.
  intros Hc. rewrite stripStep_tail; [reflexivity|].
  destruct (matchHere definitionSourcePattern [c]) as [n|] eqn:E; [|reflexivity].
  pose proof (header_before_last [] c n Hc E) as Hn.
  apply matchHere_minLength in E.
  change (minLength definitionSourcePattern) with 9%nat in E. simpl in Hn. lia.
Qed.

Lemma stripStep_keeps_last c : isWhiteSpace c = false -> forall u s',
  stripStep (u ++ [c]) = Some s' -> exists u', s' = u' ++ [c].
Proof.
  intros Hc. induction u as [|x u IH]; intros s' H.
  - simpl in H. rewrite stripStep_last in H by assumption. discriminate.
  - destruct (matchHere definitionSourcePattern ((x :: u) ++ [c])) as [n|] eqn:E.
    + rewrite (stripStep_head _ _ E) in H. inversion H; subst.
      apply header_before_last in E; [|assumption].
      exists (drop n (x :: u)).
      change (x :: u ++ [c]) with ((x :: u) ++ [c]). by rewrite drop_app_le.
    + simpl in H, E. rewrite (stripStep_tail _ _ E) in H.
      destruct (stripStep (u ++ [c])) as [s''|] eqn:E'; [|discriminate].
      inversion H; subst. destruct (IH _ eq_refl) as [u' ->]. by exists (x :: u').
Qed.

Lemma stripStep_blank_left l s :
  blank l -> stripStep (l ++ s) = app l <$> stripStep s.
Proof.
  induction 1 as [|c l Hc _ IH]; simpl.
  - by destruct (stripStep s).
  - rewrite stripStep_tail by by apply header_not_at_blank.
    rewrite IH. by destruct (stripStep s).
Qed.

Lemma stripStep_blank_right c r :
  isWhiteSpace c = false -> blank r ->
  (c = COLON -> startsWith [LF; LF] r = false) ->
  forall u,
    stripStep ((u ++ [c]) ++ r) = (fun s' => s' ++ r) <$> stripStep (u ++ [c]).
Proof.
  intros Hc Hr Hend. induction u as [|x u IH].
  - assert (H0 : matchHere definitionSourcePattern (([] ++ [c]) ++ r) = None).
    { rewrite header_local by assumption.
      destruct (matchHere definitionSourcePattern ([] ++ [c])) as [n|] eqn:E;
        [|reflexivity].
      pose proof (header_before_last [] c n Hc E) as Hn.
      apply matchHere_minLength in E.
      change (minLength definitionSourcePattern) with 9%nat in E.
      simpl in Hn. lia. }
    simpl in H0 |- *.
    by rewrite stripStep_last, (stripStep_tail _ _ H0), stripStep_blank.
  - pose proof (header_local (x :: u) c r Hc Hr Hend) as Hloc.
    destruct (matchHere definitionSourcePattern ((x :: u) ++ [c])) as [n|] eqn:E.
    + rewrite (stripStep_head _ _ Hloc), (stripStep_head _ _ E). simpl fmap.
      destruct (matchHere_sound _ _ _ E) as [Hl _].
      by rewrite drop_app_le.
    + simpl in Hloc, E |- *.
      rewrite (stripStep_tail _ _ Hloc), (stripStep_tail _ _ E), IH.
      by destruct (stripStep (u ++ [c])).
Qed.

Lemma stripSources_context l c r :
  blank l -> isWhiteSpace c = false -> blank r ->
  (c = COLON -> startsWith [LF; LF] r = false) ->
  forall (bound : nat) u, (length u < bound)%nat ->
    stripSources (l ++ (u ++ [c]) ++ r) = l ++ stripSources (u ++ [c]) ++ r.
Proof.
  intros Hl Hc Hr Hend. induction bound as [|bound IH]; intros u Hlt; [lia|].
  rewrite (stripSources_unfold (l ++ _)), (stripSources_unfold (u ++ [c])).
  rewrite stripStep_blank_left, stripStep_blank_right by assumption.
  destruct (stripStep (u ++ [c])) as [s'|] eqn:E; simpl; [|reflexivity].
  destruct (stripStep_keeps_last c Hc _ _ E) as [u' ->].
  apply stripStep_shorter in E. rewrite !length_app in E. simpl in E.
  apply IH. lia.
Qed.

End Headers.

(** ** The loop removes every header *)

Section Stripping.
Import RegExp RegExpFacts.

Lemma headerAt_matchHere x pre source post :
  headerAt x pre source post ->
  matchHere definitionSourcePattern (drop (length pre) x)
  = Some (length (sourceHeader source)).
Proof.
  intros (-> & Hne & Hline). rewrite drop_app_length.
  apply header_matchHere. by exists source, post.
Qed.

Lemma matchHere_headerAt x i n :
  (i <= length x)%nat ->
  matchHere definitionSourcePattern (drop i x) = Some n ->
  exists source post,
    headerAt x (take i x) source post /\ n = length (sourceHeader source) /\
    post = drop (i + n) x.
Proof.
  intros Hi H. apply header_matchHere in H as (source & rest & Hne & Hline & E & ->).
  exists source, rest. split; [|split; [reflexivity|]].
  - split; [|by split]. by rewrite <- E, take_drop.
  - by rewrite <- drop_drop, E, drop_app_length.
Qed.

Lemma headerAt_length x pre source post :
  headerAt x pre source post -> (length pre <= length x)%nat.
Proof. intros (-> & _). rewrite length_app. lia. Qed.

(** The loop is left exactly when the text holds no header. *)
Lemma stripStep_None_headerAt x :
  stripStep x = None <-> forall pre source post, ~ headerAt x pre source post.
Proof.
  unfold stripStep. split.
  - destruct (getNextMatchBounds definitionSourcePattern x) as [[a b]|] eqn:Hb;
      [discriminate|].
    intros _ pre source post H.
    pose proof (getNextMatchBounds_None _ _ Hb (length pre)
                  (headerAt_length _ _ _ _ H)) as Hnone.
    rewrite (headerAt_matchHere _ _ _ _ H) in Hnone. discriminate.
  - intros Hno.
    destruct (getNextMatchBounds definitionSourcePattern x) as [[a b]|] eqn:Hb;
      [exfalso|reflexivity].
    destruct (getNextMatchBounds_Some _ _ _ _ Hb)
      as (i & n & _ & _ & Hlen & Hat & _).
    destruct (matchHere_headerAt x i n ltac:(lia) Hat) as (source & post & H & _).
    exact (Hno _ _ _ H).
Qed.

(** A pass of the loop cuts the first header out. *)
Lemma stripStep_Some_firstHeader x y :
  stripStep x = Some y ->
  exists pre source post, firstHeader x pre source post /\ y = pre ++ post.
Proof.
  unfold stripStep.
  destruct (getNextMatchBounds definitionSourcePattern x) as [[a b]|] eqn:Hb;
    [|discriminate].
  intros [= <-].
  destruct (getNextMatchBounds_Some _ _ _ _ Hb)
    as (i & n & -> & -> & Hlen & Hat & Hbefore).
  destruct (matchHere_headerAt x i n ltac:(lia) Hat)
    as (source & post & H & Hn & Hpost).
  exists (take i x), source, post. split; [split; [exact H|]|].
  - intros pre' source' post' H'. rewrite length_take.
    destruct (le_lt_dec i (length pre')) as [|Hlt]; [lia|].
    pose proof (headerAt_matchHere _ _ _ _ H') as Hat'.
    rewrite (Hbefore _ Hlt) in Hat'. discriminate.
  - rewrite substring_prefix, substringFrom_drop by (unfold strlen; lia).
    by rewrite !Nat2Z.id, Hpost.
Qed.

Lemma firstHeader_unique x pre source post pre' source' post' :
  firstHeader x pre source post -> firstHeader x pre' source' post' ->
  pre = pre' /\ source = source' /\ post = post'.
Proof.
  intros [H Hmin] [H' Hmin'].
  pose proof (Hmin _ _ _ H') as Hle. pose proof (Hmin' _ _ _ H) as Hle'.
  destruct H as (E & _ & Hline), H' as (E' & _ & Hline').
  rewrite E in E'. apply app_inj_1 in E' as [<- E']; [|lia].
  split; [reflexivity|]. unfold sourceHeader in E'.
  rewrite <- !app_assoc in E'. apply app_inv_head in E'. simpl in E'.
  pose proof (source_unique _ _ _ _ Hline Hline' E') as <-.
  split; [reflexivity|]. apply app_inv_head in E'. by inversion E'.
Qed.

Lemma firstHeader_stripStep x pre source post :
  firstHeader x pre source post -> stripStep x = Some (pre ++ post).
Proof.
  intros H. destruct (stripStep x) as [y|] eqn:E.
  - destruct (stripStep_Some_firstHeader _ _ E) as (pre' & source' & post' & H' & ->).
    by destruct (firstHeader_unique _ _ _ _ _ _ _ H H') as (-> & _ & ->).
  - exfalso. destruct H as [H _].
    exact (proj1 (stripStep_None_headerAt x) E _ _ _ H).
Qed.

(** The loop computes what the words say. *)
Lemma stripSources_StripsTo : forall (bound : nat) x,
  (length x < bound)%nat -> StripsTo x (stripSources x).
Proof.
  induction bound as [|bound IH]; intros x Hlt; [lia|].
  rewrite stripSources_unfold. destruct (stripStep x) as [y|] eqn:E.
  - destruct (stripStep_Some_firstHeader _ _ E) as (pre & source & post & H & ->).
    apply stripStep_shorter in E.
    eapply StripsTo_step; [exact H|]. apply IH. lia.
  - apply StripsTo_done. by apply stripStep_None_headerAt.
Qed.

(** And the words name one text only. *)
Lemma StripsTo_stripSources x y : StripsTo x y -> y = stripSources x.
Proof.
  induction 1 as [x Hno|x pre source post y H _ IH].
  - symmetry. by apply stripSources_fixed, stripStep_None_headerAt.
  - rewrite (stripSources_unfold x), (firstHeader_stripStep _ _ _ _ H).
    exact IH.
Qed.

Lemma StripsTo_no_header x y :
  StripsTo x y -> forall pre source post, ~ headerAt y pre source post.
Proof. induction 1; assumption. Qed.

Lemma headerAt_post x pre source post :
  headerAt x pre source post ->
  post = drop (length pre + length (sourceHeader source)) x.
Proof.
  intros (-> & _). by rewrite <- drop_drop, !drop_app_length.
Qed.

Lemma headerAt_context l x r pre source post :
  headerAt x pre source post -> headerAt (l ++ x ++ r) (l ++ pre) source (post ++ r).
Proof.
  intros (-> & Hne & Hline). split; [|by split].
  by rewrite <- !app_assoc.
Qed.

End Stripping.

(** ** The parser *)

Section Parser.
Import RegExp RegExpFacts.

Lemma trimStart_idemp s : trimStart (trimStart s) = trimStart s.
Proof.
  destruct (trimStart_decomp s) as (_ & _ & _ & [->|(c & t & -> & Hc)]);
    [reflexivity|by apply trimStart_head].
Qed.

(** The marker ends in a newline, which [slice(matchBounds[1] - 1)] keeps and
    [trim] then drops. *)
Lemma found_marker_tail raw a b :
  getNextMatchBounds definitionFoundPattern raw = Some (a, b) ->
  0 <= b <= strlen raw /\ slice (b - 1) raw = LF :: drop (Z.to_nat b) raw.
Proof.
  intros Hb. pose proof (getNextMatchBounds_range _ _ _ _ Hb) as (Ha & Hab & Hbl).
  change (minLength definitionFoundPattern) with 20%nat in Hab.
  split; [lia|].
  destruct (getNextMatchBounds_Some _ _ _ _ Hb) as (i & n & -> & -> & Hlen & Hat & _).
  destruct (matchHere_sound _ _ _ Hat) as [Hn HM].
  apply definitionFoundPattern_words in HM as (count & plural & _ & _ & Hw).
  rewrite slice_drop by lia.
  replace (Z.to_nat (Z.of_nat (i + n) - 1)) with (i + (n - 1))%nat by lia.
  rewrite Nat2Z.id. rewrite <- !drop_drop.
  rewrite <- (take_drop n (drop i raw)) at 1. rewrite Hw.
  assert (Hsplit : exists pre, foundMarker count plural = pre ++ [LF]
                               /\ length pre = (n - 1)%nat).
  { exists (count ++ lit " definition" ++ (if plural then lit "s" else [])
            ++ lit " found" ++ [LF]).
    split; [unfold foundMarker; by rewrite <- !app_assoc|].
    apply (f_equal length) in Hw. rewrite length_take in Hw.
    unfold foundMarker in Hw. rewrite !length_app in *. simpl in *. lia. }
  destruct Hsplit as (pre & -> & Hpre).
  rewrite <- app_assoc, <- Hpre, drop_app_length. reflexivity.
Qed.

Lemma tryParseDefinitions_marker raw a b :
  getNextMatchBounds definitionFoundPattern raw = Some (a, b) ->
  tryParseDefinitions raw
  = Some (trim (stripSources (trim (drop (Z.to_nat b) raw)))).
Proof.
  intros Hb. unfold tryParseDefinitions. rewrite Hb. simpl snd.
  destruct (found_marker_tail _ _ _ Hb) as [_ ->].
  pose proof (trim_blank_context [LF] (drop (Z.to_nat b) raw) []) as Htrim.
  rewrite app_nil_r in Htrim. simpl in Htrim.
  rewrite Htrim; [reflexivity|by repeat constructor|constructor].
Qed.

Lemma stripSources_keeps_last c : isWhiteSpace c = false ->
  forall (bound : nat) u, (length u < bound)%nat ->
    exists u', stripSources (u ++ [c]) = u' ++ [c].
Proof.
  intros Hc. induction bound as [|bound IH]; intros u Hlt; [lia|].
  rewrite stripSources_unfold.
  destruct (stripStep (u ++ [c])) as [s'|] eqn:E; [|eauto].
  destruct (stripStep_keeps_last c Hc _ _ E) as [u' ->].
  apply stripStep_shorter in E. rewrite !length_app in E. simpl in E.
  apply IH. lia.
Qed.

Lemma trim_last_nonempty u c : isWhiteSpace c = false -> trim (u ++ [c]) <> [].
Proof.
  intros Hc. unfold trim. rewrite trimStart_snoc, trimEnd_last by assumption.
  by destruct (trimStart u).
Qed.

Lemma occursAt_trim p y i w :
  occursAt p (trim y) i w -> exists j, occursAt p y j w.
Proof.
  intros [HM (post & Hdrop & Hi)].
  destruct (trim_decomp y) as (l & r & _ & _ & Hy & _).
  exists (length l + i)%nat. split; [exact HM|]. exists (post ++ r).
  rewrite Hy at 1 2. rewrite <- drop_drop, drop_app_length.
  rewrite drop_app_le by assumption. rewrite Hdrop, length_app, <- app_assoc.
  split; [reflexivity|]. rewrite length_app. lia.
Qed.

Lemma parse_found raw d : tryParseDefinitions raw = Some d -> parse raw = Found d.
Proof. intros H. unfold parse. by rewrite H. Qed.

(** The claim of C1 fails as it is stated.  The text is trimmed before the
    headers are removed, so a header that ends the output has lost its blank
    line by then and stays: the result is [cat] and the header of dictionary
    B, where removing every header from the text after the marker and then
    trimming gives [cat]. *)
Lemma tryParseDefinitions_keeps_last_header :
  let raw := lit "1 definition found" ++ [LF; LF] ++ lit "From A:" ++ [LF; LF]
             ++ lit "cat" ++ [LF; LF] ++ lit "From B:" ++ [LF; LF] in
  getNextMatchBounds definitionFoundPattern raw = Some (0, 20) /\
  tryParseDefinitions raw = Some (lit "cat" ++ [LF; LF] ++ lit "From B:") /\
  StripsTo (drop 20 raw) (lit "cat" ++ [LF; LF]) /\
  trim (lit "cat" ++ [LF; LF]) = lit "cat" /\
  lit "cat" ++ [LF; LF] ++ lit "From B:" <> lit "cat".
Proof.
  intros raw. split; [by vm_compute|]. split; [by vm_compute|]. split.
  - replace (lit "cat" ++ [LF; LF]) with (stripSources (drop 20 raw))
      by (by vm_compute).
    apply (stripSources_StripsTo (S (length (drop 20 raw)))). lia.
  - split; [by vm_compute|]. intros H. vm_compute in H. discriminate.
Qed.

(** C1 (amended). When the marker is found, [tryParseDefinitions] returns,
    logging nothing, the text obtained in three steps from the text after
    the first occurrence of the marker: it is trimmed; every header [From
    <source>:] with its blank line is removed from it, the first one each
    time, until none is left, which names one text; and that text is trimmed.
    The lookup is a [Found] with it, and no header is left in it.  The first
    step can take the blank line of a header that ends the output, which then
    stays.  Removing every header from the text after the marker as it is,
    and trimming, gives the same definition, which is not empty, whenever
    that text ends, up to whitespace after it, in a character that is not
    whitespace and is not a colon followed at once by two newlines.
    Scenario A gives [cat: a small domestic animal]. *)
Theorem tryParseDefinitions_found
  (raw : jsstring) (a b : Z)
  (Hmarker : getNextMatchBounds definitionFoundPattern raw = Some (a, b)) :
  (exists count plural,
     count <> [] /\ digits count /\ substring a b raw = foundMarker count plural) /\
  (exists stripped,
     StripsTo (trim (drop (Z.to_nat b) raw)) stripped /\
     (forall other,
        StripsTo (trim (drop (Z.to_nat b) raw)) other -> other = stripped) /\
     tryParseDefinitions raw = Some (trim stripped) /\
     (forall w,
        callTryParseDefinitions raw w = (Normal (Some (trim stripped)), w)) /\
     parse raw = Found (trim stripped) /\
     (forall pre source post, ~ headerAt (trim stripped) pre source post) /\
     (forall body c r,
        drop (Z.to_nat b) raw = body ++ [c] ++ r ->
        isWhiteSpace c = false ->
        forallb isWhiteSpace r = true ->
        (c = COLON -> startsWith [LF; LF] r = false) ->
        exists whole,
          StripsTo (drop (Z.to_nat b) raw) whole /\
          (forall other,
             StripsTo (drop (Z.to_nat b) raw) other -> other = whole) /\
          trim whole = trim stripped /\
          trim stripped <> [])) /\
  tryParseDefinitions scenarioA = Some (lit "cat: a small domestic animal") /\
  parse scenarioA = Found (lit "cat: a small domestic animal").
Proof.
  set (x := drop (Z.to_nat b) raw).
  pose proof (tryParseDefinitions_marker _ _ _ Hmarker) as Hparse. fold x in Hparse.
  split; [by apply definitionFoundPattern_words, getNextMatchBounds_word|].
  split; [|split; by vm_compute].
  exists (stripSources (trim x)).
  split; [apply (stripSources_StripsTo (S (length (trim x)))); lia|].
  split; [intros other; apply StripsTo_stripSources|].
  split; [exact Hparse|].
  split; [intros w; by rewrite callTryParseDefinitions_run, Hparse|].
  split; [by apply parse_found|]. split.
  - intros pre source post H.
    destruct (trim_decomp (stripSources (trim x))) as (l & r & _ & _ & Hy & _).
    apply (headerAt_context l _ r) in H. rewrite <- Hy in H.
    refine (StripsTo_no_header _ _ _ _ _ _ H).
    apply (stripSources_StripsTo (S (length (trim x)))). lia.
  - intros body c r Hbody Hc Hr Hend. apply blank_forallb in Hr.
    destruct (trimStart_decomp body) as (l & Hl & Hbody' & _).
    set (u := trimStart body) in *.
    assert (Hx : x = l ++ (u ++ [c]) ++ r).
    { rewrite Hbody, Hbody' at 1. by rewrite <- !app_assoc. }
    assert (Htrim : trim x = u ++ [c]).
    { rewrite Hx, trim_blank_context by assumption. unfold trim.
      rewrite trimStart_snoc by assumption. unfold u.
      rewrite trimStart_idemp. by apply trimEnd_last. }
    exists (stripSources x).
    split; [apply (stripSources_StripsTo (S (length x))); lia|].
    split; [intros other; apply StripsTo_stripSources|].
    rewrite Htrim. split.
    + rewrite Hx.
      rewrite (stripSources_context l c r Hl Hc Hr Hend (S (length u))) by lia.
      by rewrite trim_blank_context.
    + destruct (stripSources_keeps_last c Hc (S (length u)) u ltac:(lia))
        as [u' ->].
      by apply trim_last_nonempty.
Qed.

Lemma tryParseDefinitions_found_witness :
  getNextMatchBounds definitionFoundPattern scenarioA = Some (0, 20) /\
  exists stripped,
    StripsTo (trim (drop 20 scenarioA)) stripped /\
    tryParseDefinitions scenarioA = Some (trim stripped).
Proof.
  split; [by vm_compute|].
  destruct (proj1 (proj2 (tryParseDefinitions_found scenarioA 0 20
                            ltac:(by vm_compute))))
    as (stripped & Hstrips & _ & Hparse & _).
  exists stripped. split; [exact Hstrips|exact Hparse].
Defined.

(** Why the condition speaks of any colon before two newlines, and not only
    of the colon of a header: removing a header can bring the two halves of
    another one together.  Here no header of the text after the marker is
    followed by whitespace only; removing every header from that text leaves
    nothing, and the code returns [From B:]. *)
Example tryParseDefinitions_header_joined :
  let raw := lit "1 definition found" ++ [LF; LF] ++ lit "FrFrom A:" ++ [LF; LF]
             ++ lit "om B:" ++ [LF; LF] in
  tryParseDefinitions raw = Some (lit "From B:") /\
  StripsTo (drop 20 raw) [] /\
  forall pre source post,
    headerAt (drop 20 raw) pre source post -> forallb isWhiteSpace post = false.
Proof.
  intros raw. split; [by vm_compute|]. split.
  - replace [] with (stripSources (drop 20 raw)) by (by vm_compute).
    apply (stripSources_StripsTo (S (length (drop 20 raw)))). lia.
  - intros pre source post H.
    pose proof (headerAt_length _ _ _ _ H) as Hlen.
    pose proof (headerAt_matchHere _ _ _ _ H) as Hat.
    rewrite (headerAt_post _ _ _ _ H).
    remember (length (sourceHeader source)) as n eqn:Hn. clear Hn H.
    remember (length pre) as k eqn:Hk. clear Hk.
    change (length (drop 20 raw)) with 18%nat in Hlen.
    do 19 (destruct k as [|k];
           [vm_compute in Hat; try discriminate;
            injection Hat as <-; by vm_compute|]).
    lia.
Qed.

(** The claim of C2 fails as it is stated.  When only whitespace follows the
    marker, the body is empty and [tryParseDefinitions] returns the empty
    string, not [null]: the lookup is a [Found] with an empty definition, and
    [addWordEntry] goes on to create the note. *)
Lemma tryParseDefinitions_empty_body :
  let raw := lit "1 definition found" ++ [LF; LF] in
  let w := emptyWorld (fun _ => Exited 0 raw []) in
  getNextMatchBounds definitionFoundPattern raw = Some (0, 20) /\
  tryParseDefinitions raw = Some [] /\
  parse raw = Found [] /\
  pendingWrites (snd (addWordEntry DEFAULT_SETTINGS (lit "cat") w))
  = [{| target := lit "words/cat.md"; data := []; forWord := lit "cat" |}].
Proof. vm_compute. repeat split; reflexivity. Qed.

(** C2 (amended). Whenever the marker is found, [tryParseDefinitions] returns
    a string and the lookup is a [Found], never [Malformed]; the definition has
    no whitespace at either end, and it is empty exactly when nothing but
    whitespace follows the marker. *)
Theorem tryParseDefinitions_marker_found
  (raw : jsstring) (a b : Z)
  (Hmarker : getNextMatchBounds definitionFoundPattern raw = Some (a, b)) :
  exists definition,
    tryParseDefinitions raw = Some definition /\
    parse raw = Found definition /\
    parse raw <> Malformed /\
    trim definition = definition /\
    (definition = [] <-> forallb isWhiteSpace (drop (Z.to_nat b) raw) = true).
Proof.
  eexists. split; [by apply tryParseDefinitions_marker with a|].
  split; [by apply parse_found, tryParseDefinitions_marker with a|].
  split.
  { rewrite (parse_found _ _ (tryParseDefinitions_marker _ _ _ Hmarker)).
    discriminate. }
  split; [apply trim_idemp|].
  rewrite blank_forallb.
  destruct (trim_decomp (drop (Z.to_nat b) raw))
    as (l & r & Hl & Hr & Hx & [E|(t & c & E & Hc & _)]).
  - rewrite E. split; [intros _|reflexivity].
    rewrite Hx, E. apply Forall_app. split; [assumption|]. by simpl.
  - rewrite E.
    destruct (stripSources_keeps_last c Hc (S (length t)) t ltac:(lia)) as [u' ->].
    split.
    + intros Hnil. by apply trim_last_nonempty in Hnil.
    + intros Hblank. exfalso. rewrite Hx, E in Hblank.
      apply Forall_app in Hblank as [_ Hblank].
      apply Forall_app in Hblank as [Hblank _].
      apply Forall_app in Hblank as [_ Hblank].
      inversion Hblank; subst. congruence.
Qed.

Lemma tryParseDefinitions_marker_found_witness :
  exists definition,
    tryParseDefinitions scenarioA = Some definition /\
    trim definition = definition.
Proof.
  assert (Hmarker : getNextMatchBounds definitionFoundPattern scenarioA
                    = Some (0, 20)) by by vm_compute.
  destruct (tryParseDefinitions_marker_found scenarioA 0 20 Hmarker)
    as (d & Hd & _ & _ & Htrim & _).
  exists d. split; assumption.
Defined.

(** The claim of C3 fails as it is stated.  The pattern asks, after the
    newline, for the name of the database, a colon and two spaces; the text
    of scenario B has none, so [tryParseWordSuggestions] returns [null] and
    the lookup is [Malformed]. *)
Lemma scenarioB_is_malformed :
  tryParseWordSuggestions scenarioB = None /\
  tryParseDefinitions scenarioB = None /\
  parse scenarioB = Malformed.
Proof. vm_compute. repeat split; reflexivity. Qed.

(** C3 (amended). When the definitions marker is absent and the pattern
    [No definitions found for ".+", perhaps you mean:\n.+:  ] matches, the
    matched text being the phrase with the queried term, a newline, and the
    name of the database with its colon and two spaces,
    [tryParseWordSuggestions] returns the text after the match split at the
    double spaces, and the lookup is a [NotFound] with that list: joining the
    list with double spaces gives that text back.  For scenario B with the
    database name in place the list is [cat], [catty], [category] and the
    empty string. *)
Theorem tryParseWordSuggestions_found
  (raw : jsstring) (a b : Z)
  (Hmarker : getNextMatchBounds noDefinitionPattern raw = Some (a, b))
  (Hnodef : getNextMatchBounds definitionFoundPattern raw = None) :
  (exists term source,
     term <> [] /\ lineText term /\ source <> [] /\ lineText source /\
     substring a b raw = notFoundMarker term source) /\
  tryParseWordSuggestions raw
  = Some (split (lit "  ") (drop (Z.to_nat b) raw)) /\
  parse raw = NotFound (split (lit "  ") (drop (Z.to_nat b) raw)) /\
  join (lit "  ") (split (lit "  ") (drop (Z.to_nat b) raw))
  = drop (Z.to_nat b) raw /\
  Forall (fun segment => includes segment (lit "  ") = false)
         (split (lit "  ") (drop (Z.to_nat b) raw)) /\
  parse scenarioB_dict = NotFound [lit "cat"; lit "catty"; lit "category"; []].
Proof.
  pose proof (getNextMatchBounds_range _ _ _ _ Hmarker) as (Ha & Hab & Hbl).
  assert (Hsug : tryParseWordSuggestions raw
                 = Some (split (lit "  ") (drop (Z.to_nat b) raw))).
  { unfold tryParseWordSuggestions. rewrite Hmarker. simpl snd.
    by rewrite slice_drop by lia. }
  split; [|split; [exact Hsug|split; [|split; [|split]]]].
  - apply noDefinitionPattern_words.
    by apply getNextMatchBounds_word.
  - unfold parse, tryParseDefinitions. rewrite Hnodef, Hsug.
    pose proof (split_nonempty (lit "  ") (drop (Z.to_nat b) raw)) as Hlen.
    destruct (Nat.ltb_spec (length (split (lit "  ") (drop (Z.to_nat b) raw))) 1);
      [lia|reflexivity].
  - by apply join_split.
  - by apply split_clean.
  - by vm_compute.
Qed.

Lemma tryParseWordSuggestions_found_witness :
  parse scenarioB_dict = NotFound (split (lit "  ") (drop 64 scenarioB_dict)).
Proof.
  refine (proj1 (proj2 (proj2
    (tryParseWordSuggestions_found scenarioB_dict 0 64 _ _)))).
  - by vm_compute.
  - by vm_compute.
Defined.

(** C4. A text in which neither pattern occurs makes both
    [tryParseDefinitions] and [tryParseWordSuggestions] return [null], each
    after logging its own error, and the lookup is [Malformed]: it is neither
    [Found] nor [NotFound].  What [addWordEntry] then does, from the world
    the dictionary call left, is exactly this: for an empty text, the notice
    that the word could not be found and the error that no result was
    obtained; for any other text, the errors of the two parsers, the same
    notice and the error that no suggestions were given.  It opens no picker
    and writes no note. *)
Theorem parse_malformed
  (raw : jsstring)
  (Hnodef : forall i w, ~ occursAt definitionFoundPattern raw i w)
  (Hnosug : forall i w, ~ occursAt noDefinitionPattern raw i w) :
  tryParseDefinitions raw = None /\
  tryParseWordSuggestions raw = None /\
  parse raw = Malformed /\
  (forall w,
     callTryParseDefinitions raw w
     = (Normal None, logged [ConsoleError definitionFormatMsg] w) /\
     callTryParseWordSuggestions raw w
     = (Normal None, logged [ConsoleError suggestionFormatMsg] w)) /\
  forall settings word w w1,
    getDictionaryResult settings word w = (Normal (Some raw), w1) ->
    addWordEntry settings word w
    = (Normal tt,
       logged
         match raw with
         | [] =>
           [Notice (couldntFindMsg word);
            ConsoleError (lit "Failed to get dictionary result for " ++ word)]
         | _ :: _ =>
           [ConsoleError definitionFormatMsg;
            ConsoleError suggestionFormatMsg;
            Notice (couldntFindMsg word);
            ConsoleError (noSuggestionsMsg word)]
         end w1).
Proof.
  apply getNextMatchBounds_absent in Hnodef, Hnosug.
  assert (Hd : tryParseDefinitions raw = None)
    by (unfold tryParseDefinitions; by rewrite Hnodef).
  assert (Hs : tryParseWordSuggestions raw = None)
    by (unfold tryParseWordSuggestions; by rewrite Hnosug).
  assert (Hp : parse raw = Malformed) by (unfold parse; by rewrite Hd, Hs).
  split; [exact Hd|]. split; [exact Hs|]. split; [exact Hp|]. split.
  - intros w.
    by rewrite callTryParseDefinitions_run, callTryParseWordSuggestions_run,
      Hd, Hs.
  - intros settings word w w1 Hrun.
    rewrite (addWordEntry_dispatch _ _ _ _ _ Hrun). unfold dispatch.
    destruct raw as [|c raw].
    + change (falsy (Some [])) with true.
      unfold mbind, M_bind, emit. by rewrite logged_logged.
    + change (falsy (Some (c :: raw))) with false.
      change (default [] (Some (c :: raw))) with (c :: raw). rewrite Hp.
      unfold mbind, M_bind, emit. by rewrite !logged_logged.
Qed.

Lemma parse_malformed_witness :
  parse (lit "garbage unrelated text") = Malformed.
Proof.
  refine (proj1 (proj2 (proj2
    (parse_malformed (lit "garbage unrelated text") _ _)))).
  - apply getNextMatchBounds_None_absent. by vm_compute.
  - apply getNextMatchBounds_None_absent. by vm_compute.
Defined.

Lemma tryParseWordSuggestions_nonempty_text raw suggestions :
  tryParseWordSuggestions raw = Some suggestions -> raw <> [].
Proof.
  unfold tryParseWordSuggestions.
  destruct (getNextMatchBounds noDefinitionPattern raw) as [[a b]|] eqn:E;
    [|discriminate].
  intros _ ->. apply getNextMatchBounds_range in E as (Ha & Hab & Hbl).
  change (minLength noDefinitionPattern) with 52%nat in Hab.
  unfold strlen in Hbl. simpl in Hbl. lia.
Qed.

(** C9. A list that [tryParseWordSuggestions] returns has at least one
    element.  So the branch of [addWordEntry] that reports that no
    suggestions were given is reached only when [tryParseWordSuggestions]
    returned [null]: with a list returned and no definition found, the call
    of [tryParseWordSuggestions] logs nothing, and [addWordEntry] does
    exactly this from the world the dictionary call left: the error that
    [tryParseDefinitions] logged, the notice asking which word was meant, and
    the picker opened with that list. *)
Theorem tryParseWordSuggestions_nonempty
  (raw : jsstring) (suggestions : list jsstring)
  (Hparsed : tryParseWordSuggestions raw = Some suggestions) :
  (1 <= length suggestions)%nat /\
  (length suggestions <? 1)%nat = false /\
  (forall other, parse other = Malformed -> tryParseWordSuggestions other = None) /\
  (forall w,
     callTryParseWordSuggestions raw w = (Normal (Some suggestions), w)) /\
  (tryParseDefinitions raw = None ->
   parse raw = NotFound suggestions /\
   forall settings word w w1,
     getDictionaryResult settings word w = (Normal (Some raw), w1) ->
     addWordEntry settings word w
     = (Normal tt,
        logged [ConsoleError definitionFormatMsg;
                Notice (lit "Couldn't find word: " ++ word
                        ++ lit ", did you mean one of these words?");
                OpenSuggestionModal suggestions] w1)).
Proof.
  pose proof tryParseWordSuggestions_length as Hlen.
  split; [apply Nat.ltb_ge; eauto|]. split; [eauto|]. split; [|split].
  - intros other. unfold parse.
    destruct (tryParseDefinitions other); [discriminate|].
    destruct (tryParseWordSuggestions other) as [l|] eqn:E; [|reflexivity].
    by rewrite (Hlen _ _ E).
  - intros w. by rewrite callTryParseWordSuggestions_run, Hparsed.
  - intros Hd.
    assert (Hp : parse raw = NotFound suggestions).
    { unfold parse. by rewrite Hd, Hparsed, (Hlen _ _ Hparsed). }
    split; [exact Hp|]. intros settings word w w1 Hrun.
    rewrite (addWordEntry_dispatch _ _ _ _ _ Hrun). unfold dispatch.
    pose proof (tryParseWordSuggestions_nonempty_text _ _ Hparsed) as Hne.
    destruct raw as [|c raw]; [done|].
    change (falsy (Some (c :: raw))) with false.
    change (default [] (Some (c :: raw))) with (c :: raw).
    rewrite Hp. unfold mbind, M_bind, emit. by rewrite !logged_logged.
Qed.

Lemma tryParseWordSuggestions_nonempty_witness :
  (1 <= length [lit "cat"; lit "catty"; lit "category"; []])%nat.
Proof.
  refine (proj1 (tryParseWordSuggestions_nonempty scenarioB_dict
                   [lit "cat"; lit "catty"; lit "category"; []] _)).
  by vm_compute.
Defined.

(** Two dictionaries answer: both headers go, the blank line between the
    two bodies stays. *)
Example tryParseDefinitions_two_sources :
  tryParseDefinitions
    (lit "2 definitions found" ++ [LF; LF]
     ++ lit "From French-English FreeDict Dictionary [fd-fra-eng]:" ++ [LF; LF]
     ++ lit "  chat" ++ [LF] ++ lit "  cat" ++ [LF; LF]
     ++ lit "From Larousse [lar]:" ++ [LF; LF]
     ++ lit "  chat, n.m." ++ [LF])
  = Some (lit "chat" ++ [LF] ++ lit "  cat" ++ [LF; LF] ++ lit "  chat, n.m.").
Proof. by vm_compute. Qed.

(** The two [.+] are greedy within their line: the match ends after the last
    colon with two spaces of the list line. *)
Example tryParseWordSuggestions_greedy :
  tryParseWordSuggestions
    (lit "No definitions found for " ++ [QUOTE] ++ lit "x" ++ [QUOTE]
     ++ lit ", perhaps you mean:" ++ [LF] ++ lit "gcide:  a  b:  c")
  = Some [lit "c"].
Proof. by vm_compute. Qed.

(** Separators are cut from the left and do not overlap. *)
Example split_three_spaces :
  split (lit "  ") (lit "a   b") = [lit "a"; lit " b"]
  /\ split (lit "  ") [] = [[]]
  /\ trim (lit "  a b " ++ [LF]) = lit "a b".
Proof. by vm_compute. Qed.

End Parser.

(** ** More on the parser *)

Section ParserMore.
Import RegExp RegExpFacts.

Lemma getNextMatchBounds_occurs p input a b :
  getNextMatchBounds p input = Some (a, b) ->
  occursAt p input (Z.to_nat a) (substring a b input).
Proof.
  intros Hb. destruct (getNextMatchBounds_Some _ _ _ _ Hb)
    as (i & n & -> & -> & Hlen & Hat & _).
  rewrite substring_take_drop by (unfold strlen; lia).
  rewrite Nat2Z.id.
  replace (Z.to_nat (Z.of_nat (i + n) - Z.of_nat i)) with n by lia.
  apply matchHere_occursAt; [lia|exact Hat].
Qed.

Lemma getNextMatchBounds_present p input i w :
  occursAt p input i w -> exists a b, getNextMatchBounds p input = Some (a, b).
Proof.
  intros Hocc. destruct (getNextMatchBounds p input) as [[a b]|] eqn:E; [eauto|].
  exfalso. exact (getNextMatchBounds_None_absent _ _ E i w Hocc).
Qed.

Lemma stripStep_absent s :
  (forall i w, ~ occursAt definitionSourcePattern s i w) -> stripStep s = None.
Proof.
  intros H. unfold stripStep. by rewrite (getNextMatchBounds_absent _ _ H).
Qed.

Lemma stripStep_None_absent s :
  stripStep s = None -> forall i w, ~ occursAt definitionSourcePattern s i w.
Proof.
  unfold stripStep. intros H.
  destruct (getNextMatchBounds definitionSourcePattern s) as [[? ?]|] eqn:E;
    [discriminate|].
  by apply getNextMatchBounds_None_absent.
Qed.

Lemma stripSources_stops s : stripStep (stripSources s) = None.
Proof.
  by destruct (stripSources_run (S (length s)) s ltac:(lia)) as (_ & _ & _ & H).
Qed.

Lemma trim_absent p y :
  (forall i w, ~ occursAt p y i w) -> forall i w, ~ occursAt p (trim y) i w.
Proof.
  intros H i w Hocc. apply occursAt_trim in Hocc as [j Hocc]. by eapply H.
Qed.

Lemma trim_sublist x : sublist (trim x) x.
Proof.
  destruct (trim_decomp x) as (l & r & _ & _ & Hx & _). rewrite Hx at 2.
  apply sublist_inserts_l, sublist_inserts_r. reflexivity.
Qed.

Lemma stripStep_sublist s s' : stripStep s = Some s' -> sublist s' s.
Proof.
  unfold stripStep.
  destruct (getNextMatchBounds definitionSourcePattern s) as [[a b]|] eqn:E;
    [|discriminate].
  intros [= <-]. apply getNextMatchBounds_range in E as (Ha & Hab & Hb).
  rewrite substring_prefix, substringFrom_drop by lia.
  rewrite <- (take_drop (Z.to_nat a) s) at 3.
  apply sublist_app; [reflexivity|].
  replace (Z.to_nat b) with (Z.to_nat a + (Z.to_nat b - Z.to_nat a))%nat by lia.
  rewrite <- drop_drop. apply sublist_drop.
Qed.

Lemma stripSources_sublist : forall (bound : nat) s,
  (length s < bound)%nat -> sublist (stripSources s) s.
Proof.
  induction bound as [|bound IH]; intros s Hlt; [lia|].
  rewrite stripSources_unfold.
  destruct (stripStep s) as [s'|] eqn:E; [|reflexivity].
  pose proof (stripStep_shorter _ _ E).
  transitivity s'; [apply IH; lia|by apply stripStep_sublist].
Qed.

(** X1. What [tryParseDefinitions] returns is clean: it has no whitespace at
    either end, no header [From ...:] with its blank line occurs in it, and
    running the header loop on it again changes nothing. *)
Theorem tryParseDefinitions_clean
  (raw definition : jsstring)
  (Hparsed : tryParseDefinitions raw = Some definition) :
  trim definition = definition /\
  (forall i w, ~ occursAt definitionSourcePattern definition i w) /\
  stripSources definition = definition.
Proof.
  unfold tryParseDefinitions in Hparsed.
  destruct (getNextMatchBounds definitionFoundPattern raw) as [mb|];
    [|discriminate].
  injection Hparsed as <-.
  assert (Hnone : forall i w,
            ~ occursAt definitionSourcePattern
                (trim (stripSources (trim (slice (snd mb - 1) raw)))) i w).
  { apply trim_absent, stripStep_None_absent, stripSources_stops. }
  split; [apply trim_idemp|]. split; [exact Hnone|].
  by apply stripSources_fixed, stripStep_absent.
Qed.

Lemma tryParseDefinitions_clean_witness :
  trim (lit "cat: a small domestic animal") = lit "cat: a small domestic animal".
Proof.
  refine (proj1 (tryParseDefinitions_clean scenarioA
                   (lit "cat: a small domestic animal") _)).
  by vm_compute.
Defined.

(** X2. The definition is made of characters of the output, in their order,
    taken from behind the marker: it is a subsequence of the text that
    follows the first marker, and so at least 20 code units shorter than the
    output. *)
Theorem tryParseDefinitions_subsequence
  (raw definition : jsstring)
  (Hparsed : tryParseDefinitions raw = Some definition) :
  (exists a b,
     getNextMatchBounds definitionFoundPattern raw = Some (a, b) /\
     sublist definition (drop (Z.to_nat b) raw)) /\
  sublist definition raw /\
  (length definition + 20 <= length raw)%nat.
Proof.
  destruct (getNextMatchBounds definitionFoundPattern raw) as [[a b]|] eqn:Hb.
  - rewrite (tryParseDefinitions_marker _ _ _ Hb) in Hparsed.
    injection Hparsed as <-.
    set (x := drop (Z.to_nat b) raw).
    assert (Hsub : sublist (trim (stripSources (trim x))) x).
    { transitivity (stripSources (trim x)); [apply trim_sublist|].
      transitivity (trim x); [|apply trim_sublist].
      apply (stripSources_sublist (S (length (trim x)))). lia. }
    split; [eauto|]. split.
    + transitivity x; [exact Hsub|apply sublist_drop].
    + subst x. apply sublist_length in Hsub.
      rewrite length_drop in Hsub.
      apply getNextMatchBounds_range in Hb as (Ha & Hab & Hbl).
      change (minLength definitionFoundPattern) with 20%nat in Hab.
      unfold strlen in Hbl. lia.
  - unfold tryParseDefinitions in Hparsed. rewrite Hb in Hparsed. discriminate.
Qed.

Lemma tryParseDefinitions_subsequence_witness :
  sublist (lit "cat: a small domestic animal") scenarioA.
Proof.
  refine (proj1 (proj2 (tryParseDefinitions_subsequence scenarioA
                          (lit "cat: a small domestic animal") _))).
  by vm_compute.
Defined.

(** X3. When no header occurs in the text after the marker, the definition is
    that text, trimmed. *)
Theorem tryParseDefinitions_without_headers
  (raw : jsstring) (a b : Z)
  (Hmarker : getNextMatchBounds definitionFoundPattern raw = Some (a, b))
  (Hnone : forall i w,
     ~ occursAt definitionSourcePattern (drop (Z.to_nat b) raw) i w) :
  tryParseDefinitions raw = Some (trim (drop (Z.to_nat b) raw)).
Proof.
  rewrite (tryParseDefinitions_marker _ _ _ Hmarker).
  rewrite (stripSources_fixed (trim _)); [by rewrite trim_idemp|].
  by apply stripStep_absent, trim_absent.
Qed.

Lemma tryParseDefinitions_without_headers_witness :
  tryParseDefinitions (lit "3 definitions found" ++ [LF; LF] ++ lit "  cat " ++ [LF])
  = Some (trim (drop 21 (lit "3 definitions found" ++ [LF; LF] ++ lit "  cat " ++ [LF]))).
Proof.
  refine (tryParseDefinitions_without_headers _ 0 21 _ _).
  - by vm_compute.
  - apply getNextMatchBounds_None_absent. by vm_compute.
Defined.

(** X4. The definitions marker has priority: when it occurs anywhere in the
    output, the lookup is a [Found], whatever else the output holds, and
    [addWordEntry] replaces the selection and goes on to the note; it does
    not open the picker. *)
Theorem definitions_marker_has_priority
  (raw : jsstring) (i : nat) (marker : jsstring)
  (Hocc : occursAt definitionFoundPattern raw i marker) :
  exists definition,
    tryParseDefinitions raw = Some definition /\
    parse raw = Found definition /\
    forall settings word w w1,
      getDictionaryResult settings word w = (Normal (Some raw), w1) ->
      addWordEntry settings word w
      = (emit (ReplaceSelection word);;
         createWordNote (wordDir settings ++ lit "/" ++ word ++ lit ".md")
                        word definition;;
         updateStatusBar settings) w1.
Proof.
  destruct (getNextMatchBounds_present _ _ _ _ Hocc) as (a & b & Hb).
  pose proof (tryParseDefinitions_marker _ _ _ Hb) as Hd.
  eexists. split; [exact Hd|]. split; [by apply parse_found|].
  intros settings word w w1 Hrun.
  rewrite (addWordEntry_dispatch _ _ _ _ _ Hrun). unfold dispatch.
  assert (Hne : raw <> []).
  { intros ->. apply getNextMatchBounds_range in Hb as (Ha & Hab & Hbl).
    change (minLength definitionFoundPattern) with 20%nat in Hab.
    unfold strlen in Hbl. simpl in Hbl. lia. }
  destruct raw as [|c raw]; [done|].
  change (falsy (Some (c :: raw))) with false.
  change (default [] (Some (c :: raw))) with (c :: raw).
  by rewrite (parse_found _ _ Hd).
Qed.

Lemma definitions_marker_has_priority_witness :
  exists definition,
    parse (scenarioB_dict ++ [LF] ++ lit "1 definition found" ++ [LF; LF] ++ lit "cat")
    = Found definition.
Proof.
  assert (Hocc : occursAt definitionFoundPattern
            (scenarioB_dict ++ [LF] ++ lit "1 definition found" ++ [LF; LF] ++ lit "cat")
            (Z.to_nat 87)
            (substring 87 107
               (scenarioB_dict ++ [LF] ++ lit "1 definition found" ++ [LF; LF]
                ++ lit "cat"))).
  { apply getNextMatchBounds_occurs. by vm_compute. }
  destruct (definitions_marker_has_priority _ _ _ Hocc) as (d & _ & Hp & _).
  exists d. exact Hp.
Defined.

End ParserMore.

(** ** The lookup from end to end *)

Section Orchestrator.

Lemma emit_emit e1 e2 w : (emit e1;; emit e2) w = (Normal tt, logged [e1; e2] w).
Proof. unfold mbind, M_bind, emit. by rewrite logged_logged. Qed.

Lemma updateStatusBar_run settings w :
  updateStatusBar settings w = (Normal tt, logged statusEffects w).
Proof.
  unfold updateStatusBar, getDirFileCount, mbind, M_bind, mret, M_ret.
  destruct (decide (-1 = -1)); [|done]. apply emit_emit.
Qed.

Lemma found_branch_present settings word definition w :
  is_Some (files w !! notePath settings word) ->
  (emit (ReplaceSelection word);;
   createWordNote (notePath settings word) word definition;;
   updateStatusBar settings) w
  = (Normal tt,
     logged ([ReplaceSelection word; Notice (alreadyExistsMsg word);
              ConsoleLog (alreadyExistsMsg word)] ++ statusEffects) w).
Proof.
  intros Hex. unfold mbind at 1 2. unfold M_bind at 1 2. unfold emit at 1.
  rewrite createWordNote_present by exact Hex.
  rewrite updateStatusBar_run. by rewrite !logged_logged.
Qed.

Lemma found_branch_absent settings word definition w :
  files w !! notePath settings word = None ->
  (emit (ReplaceSelection word);;
   createWordNote (notePath settings word) word definition;;
   updateStatusBar settings) w
  = (Normal tt,
     logged statusEffects
       (snd (writeFile (notePath settings word) definition word
               (logged [ReplaceSelection word] w)))).
Proof.
  intros Hno. unfold mbind at 1 2. unfold M_bind at 1 2. unfold emit at 1.
  rewrite createWordNote_absent by exact Hno.
  unfold writeFile at 1. by rewrite updateStatusBar_run.
Qed.

Lemma parse_Found_inv raw definition :
  parse raw = Found definition -> tryParseDefinitions raw = Some definition.
Proof.
  unfold parse. destruct (tryParseDefinitions raw); [congruence|].
  destruct (tryParseWordSuggestions raw) as [l|]; [|discriminate].
  by destruct (length l <? 1)%nat.
Qed.

Lemma no_spawn_app l1 l2 :
  forallb (fun e => negb (isSpawn e)) l1 = true ->
  forallb (fun e => negb (isSpawn e)) l2 = true ->
  forallb (fun e => negb (isSpawn e)) (l1 ++ l2) = true.
Proof. intros H1 H2. rewrite forallb_app, H1, H2. reflexivity. Qed.

Lemma addWordEntry_effects
  (settings : ObsidianLexiconSettings) (word : jsstring) (w : World) :
  exists w' log queued,
    addWordEntry settings word w = (Normal tt, w') /\
    files w' = files w /\ processes w' = processes w /\
    trace w' = trace w ++ Spawn (queryCommand settings word) :: log /\
    forallb (fun e => negb (isSpawn e)) log = true /\
    pendingWrites w' = pendingWrites w ++ queued /\
    (queued = [] \/
     exists out definition,
       invokeResult (processes w (queryCommand settings word)) = Some out /\
       tryParseDefinitions out = Some definition /\
       files w !! notePath settings word = None /\
       queued = [{| target := notePath settings word; data := definition;
                    forWord := word |}]).
Proof.
  pose proof (getDictionaryResult_run settings word w) as Hrun.
  rewrite (addWordEntry_dispatch _ _ _ _ _ Hrun). unfold dispatch.
  set (cmd := queryCommand settings word) in *.
  set (ilog := invokeLog cmd (processes w cmd)) in *.
  pose proof (invokeLog_no_spawn cmd (processes w cmd)) as Hilog.
  fold ilog in Hilog.
  destruct (falsy (invokeResult (processes w cmd))) eqn:Hfalsy.
  { rewrite emit_emit, logged_logged.
    eexists _, _, []. split; [reflexivity|]. simpl.
    rewrite app_nil_r. repeat split; try reflexivity; [|by left].
    by apply no_spawn_app. }
  destruct (invokeResult (processes w cmd)) as [out|] eqn:Hout; [|discriminate].
  change (default [] (Some out)) with out.
  destruct (parse out) as [definition|suggestions|] eqn:Hparse.
  - apply parse_Found_inv in Hparse.
    fold (notePath settings word).
    destruct (files w !! notePath settings word) as [old|] eqn:Hfile.
    + rewrite found_branch_present by (simpl; rewrite Hfile; eauto).
      rewrite logged_logged.
      eexists _, _, []. split; [reflexivity|]. simpl.
      rewrite app_nil_r. repeat split; try reflexivity; [|by left].
      by apply no_spawn_app.
    + rewrite found_branch_absent by exact Hfile.
      eexists _, (ilog ++ ReplaceSelection word :: statusEffects), _.
      split; [reflexivity|]. simpl.
      split; [reflexivity|]. split; [reflexivity|].
      split; [by rewrite <- !app_assoc|].
      split; [by apply no_spawn_app|]. split; [reflexivity|].
      right. by exists out, definition.
  - unfold mbind, M_bind, emit. rewrite !logged_logged.
    eexists _, _, []. split; [reflexivity|]. simpl.
    rewrite app_nil_r. repeat split; try reflexivity; [|by left].
    by apply no_spawn_app.
  - unfold mbind, M_bind, emit. rewrite !logged_logged.
    eexists _, _, []. split; [reflexivity|]. simpl.
    rewrite app_nil_r. repeat split; try reflexivity; [|by left].
    by apply no_spawn_app.
Qed.

(** X5. Called while no write is outstanding, [addWordEntry] always
    returns and runs the dict command once, as the first thing it does.  It
    calls [fs.writeFile] at most once; the call is for the note of the word,
    is made only when [existsSync] found no file at that path, and its
    content is the definition parsed from the output of the command, which
    has no whitespace at its ends.  (When the started write reaches the file
    is not said.) *)
Theorem addWordEntry_frame
  (settings : ObsidianLexiconSettings) (word : jsstring) (w : World)
  (Hidle : pendingWrites w = []) :
  exists w' log queued,
    addWordEntry settings word w = (Normal tt, w') /\
    processes w' = processes w /\
    trace w' = trace w ++ Spawn (queryCommand settings word) :: log /\
    forallb (fun e => negb (isSpawn e)) log = true /\
    pendingWrites w' = queued /\
    (queued = [] \/
     exists out definition,
       invokeResult (processes w (queryCommand settings word)) = Some out /\
       tryParseDefinitions out = Some definition /\
       trim definition = definition /\
       files w !! notePath settings word = None /\
       queued = [{| target := notePath settings word; data := definition;
                    forWord := word |}]).
Proof.
  destruct (addWordEntry_effects settings word w)
    as (w' & log & queued & Hrun & Hfiles & Hprocs & Htrace & Hlog & Hpending
        & Hqueued).
  rewrite Hidle in Hpending. simpl in Hpending.
  exists w', log, queued. repeat split; try assumption.
  destruct Hqueued as [->|(out & definition & Hout & Hdef & Hfree & ->)];
    [by left|right].
  exists out, definition. repeat split; try assumption.
  unfold tryParseDefinitions in Hdef.
  destruct (getNextMatchBounds definitionFoundPattern out); [|discriminate].
  injection Hdef as <-. apply trim_idemp.
Qed.

Lemma addWordEntry_frame_witness :
  exists w',
    addWordEntry DEFAULT_SETTINGS (lit "cat")
      (emptyWorld (fun _ => Exited 0 scenarioA [])) = (Normal tt, w') /\
    (length (pendingWrites w') <= 1)%nat.
Proof.
  destruct (addWordEntry_frame DEFAULT_SETTINGS (lit "cat")
              (emptyWorld (fun _ => Exited 0 scenarioA [])) eq_refl)
    as (w' & log & queued & Hrun & _ & _ & _ & Hpending & Hqueued).
  exists w'. split; [exact Hrun|]. rewrite Hpending.
  destruct Hqueued as [->|(out & definition & _ & _ & _ & _ & ->)];
    simpl; lia.
Defined.

Lemma tryParseDefinitions_nonempty_text raw definition :
  tryParseDefinitions raw = Some definition -> raw <> [].
Proof.
  unfold tryParseDefinitions.
  destruct (getNextMatchBounds definitionFoundPattern raw) as [[a b]|] eqn:E;
    [|discriminate].
  intros _ ->. apply getNextMatchBounds_range in E as (Ha & Hab & Hbl).
  change (RegExpFacts.minLength definitionFoundPattern) with 20%nat in Hab.
  unfold strlen in Hbl. simpl in Hbl. lia.
Qed.

Lemma addWordEntry_found settings word w out err definition :
  processes w (queryCommand settings word) = Exited 0 out err ->
  tryParseDefinitions out = Some definition ->
  addWordEntry settings word w
  = (emit (ReplaceSelection word);;
     createWordNote (notePath settings word) word definition;;
     updateStatusBar settings) (logged [Spawn (queryCommand settings word)] w).
Proof.
  intros Hexit Hdef.
  pose proof (getDictionaryResult_run settings word w) as Hrun.
  rewrite Hexit in Hrun. simpl in Hrun.
  rewrite (addWordEntry_dispatch _ _ _ _ _ Hrun). unfold dispatch.
  pose proof (tryParseDefinitions_nonempty_text _ _ Hdef) as Hne.
  destruct out as [|c out]; [done|].
  change (falsy (Some (c :: out))) with false.
  change (default [] (Some (c :: out))) with (c :: out).
  by rewrite (parse_found _ _ Hdef).
Qed.

(** X6. A lookup that finds a definition, from end to end.  With no write
    outstanding and no note for the word yet, [addWordEntry] queues the write
    of the definition; once the write has completed, the note holds exactly
    the definition, every other file is as before, and the status bar reads
    [Lexicon Words: N/A].  Looking the same word up again reports that the
    entry already exists and leaves the note as it is. *)
Theorem lookup_writes_definition_once
  (settings : ObsidianLexiconSettings) (word : jsstring) (w : World)
  (out err definition : jsstring)
  (Hidle : pendingWrites w = [])
  (Hexit : processes w (queryCommand settings word) = Exited 0 out err)
  (Hdef : tryParseDefinitions out = Some definition)
  (Hfree : files w !! notePath settings word = None) :
  exists w1 w2 w3,
    addWordEntry settings word w = (Normal tt, w1) /\
    completeWrite None w1 = (Normal tt, w2) /\
    addWordEntry settings word w2 = (Normal tt, w3) /\
    files w1 = files w /\
    pendingWrites w1 = [{| target := notePath settings word;
                           data := definition; forWord := word |}] /\
    files w2 = <[notePath settings word := definition]> (files w) /\
    pendingWrites w2 = [] /\
    trace w2 = trace w
               ++ [Spawn (queryCommand settings word); ReplaceSelection word]
               ++ statusEffects
               ++ [Notice (lit "Created a new note for word: " ++ word);
                   ConsoleLog (lit "Created new note for word " ++ word)] /\
    files w3 = files w2 /\
    pendingWrites w3 = [] /\
    trace w3 = trace w2
               ++ [Spawn (queryCommand settings word); ReplaceSelection word;
                   Notice (alreadyExistsMsg word);
                   ConsoleLog (alreadyExistsMsg word)]
               ++ statusEffects.
Proof.
  pose proof (addWordEntry_found _ _ _ _ _ _ Hexit Hdef) as H1.
  rewrite found_branch_absent in H1 by exact Hfree.
  eexists _, _, _. split; [exact H1|].
  unfold completeWrite at 1. simpl pendingWrites at 1. rewrite Hidle.
  simpl app at 1. cbv iota. unfold writeCallback. rewrite emit_emit.
  split; [reflexivity|].
  match goal with |- addWordEntry _ _ ?w2 = _ /\ _ =>
    assert (H3 : addWordEntry settings word w2
                 = (Normal tt,
                    logged ([Spawn (queryCommand settings word);
                             ReplaceSelection word;
                             Notice (alreadyExistsMsg word);
                             ConsoleLog (alreadyExistsMsg word)]
                            ++ statusEffects) w2))
  end.
  { erewrite addWordEntry_found; [|exact Hexit|exact Hdef].
    rewrite found_branch_present; [by rewrite logged_logged|].
    simpl. rewrite lookup_insert_eq. eauto. }
  split; [exact H3|]. simpl. rewrite Hidle.
  repeat split; try reflexivity. by rewrite <- !app_assoc.
Qed.

Lemma lookup_writes_definition_once_witness :
  exists w2,
    completeWrite None
      (snd (addWordEntry DEFAULT_SETTINGS (lit "cat")
              (emptyWorld (fun _ => Exited 0 scenarioA []))))
    = (Normal tt, w2) /\
    files w2 !! lit "words/cat.md" = Some (lit "cat: a small domestic animal").
Proof.
  destruct (lookup_writes_definition_once DEFAULT_SETTINGS (lit "cat")
              (emptyWorld (fun _ => Exited 0 scenarioA [])) scenarioA []
              (lit "cat: a small domestic animal") eq_refl eq_refl
              ltac:(by vm_compute) eq_refl)
    as (w1 & w2 & w3 & H1 & H2 & _ & _ & _ & Hfiles & _).
  exists w2. rewrite H1. split; [exact H2|].
  rewrite Hfiles. apply lookup_insert_eq.
Defined.

(** X7. The editor command.  With an empty selection it asks the user to
    select a word and does nothing else: no process is run and nothing is
    written.  With any other selection, blank ones too, it looks the
    selection up as it is, which runs the dict command. *)
Theorem editorCallback_runs_dict_iff_selected
  (settings : ObsidianLexiconSettings) (selection : jsstring) (w : World) :
  exists w',
    editorCallback settings selection w = (Normal tt, w') /\
    files w' = files w /\
    (selection = [] ->
     w' = logged [ConsoleLog [];
                  Notice (lit "Please select a word for which to create an entry.");
                  ConsoleError (lit "Empty selection")] w) /\
    (selection <> [] ->
     addWordEntry settings selection (logged [ConsoleLog selection] w)
     = (Normal tt, w')) /\
    (existsb isSpawn (drop (length (trace w)) (trace w')) = true
     <-> selection <> []) /\
    (forall command,
       In (Spawn command) (drop (length (trace w)) (trace w')) ->
       command = queryCommand settings selection).
Proof.
  unfold editorCallback. unfold mbind at 1. unfold M_bind at 1. unfold emit at 1.
  destruct selection as [|c selection].
  - change (strlen [] <? 1) with true. cbv iota. rewrite emit_emit, logged_logged.
    eexists. split; [reflexivity|]. simpl. rewrite drop_app_length. simpl.
    repeat split; try done.
    intros command [H|[H|[H|[]]]]; discriminate.
  - assert ((strlen (c :: selection) <? 1) = false) as ->
      by (apply Z.ltb_ge; unfold strlen; simpl length; lia).
    destruct (addWordEntry_effects settings (c :: selection)
                (logged [ConsoleLog (c :: selection)] w))
      as (w' & log & queued & Hrun & Hfiles & _ & Htrace & Hlog & _).
    exists w'. split; [exact Hrun|]. split; [exact Hfiles|].
    split; [done|]. split; [done|].
    simpl in Htrace. rewrite Htrace, <- app_assoc, drop_app_length. simpl.
    split; [done|].
    intros command [H|[H|H]]; [discriminate|congruence|].
    exfalso. rewrite forallb_forall in Hlog. by specialize (Hlog _ H).
Qed.

(** X8. The choice made in the picker is trimmed before it is looked up:
    suggestions that differ only in the whitespace around them give the same
    lookup.  Without an active editor nothing is looked up. *)
Theorem onChooseSuggestion_trims
  (settings : ObsidianLexiconSettings) (l value r : jsstring) (w : World)
  (Hl : forallb isWhiteSpace l = true)
  (Hr : forallb isWhiteSpace r = true) :
  onChooseSuggestion settings true (l ++ value ++ r) w
  = addWordEntry settings (trim value) w /\
  onChooseSuggestion settings true (l ++ value ++ r) w
  = onChooseSuggestion settings true value w /\
  onChooseSuggestion settings false (l ++ value ++ r) w
  = (Normal tt,
     logged [ConsoleError
               (lit "No editor active, expected active editor when replacing selection.")]
            w).
Proof.
  apply blank_forallb in Hl, Hr.
  unfold onChooseSuggestion, onSubmit.
  by rewrite trim_blank_context.
Qed.

Lemma onChooseSuggestion_trims_witness :
  onChooseSuggestion DEFAULT_SETTINGS true (lit "  " ++ lit "catty" ++ [LF])
    (emptyWorld (fun _ => SpawnFailed []))
  = addWordEntry DEFAULT_SETTINGS (trim (lit "catty"))
      (emptyWorld (fun _ => SpawnFailed [])).
Proof.
  exact (proj1 (onChooseSuggestion_trims DEFAULT_SETTINGS (lit "  ") (lit "catty")
                  [LF] (emptyWorld (fun _ => SpawnFailed [])) eq_refl eq_refl)).
Defined.

End Orchestrator.

(** ** More on the picker *)

Section PickerMore.

Lemma includes_trans s q q' :
  includes s q' = true -> includes q' q = true -> includes s q = true.
Proof.
  rewrite !includes_substring.
  intros (pre & post & ->) (pre' & post' & ->).
  exists (pre ++ pre'), (post' ++ post). by rewrite <- !app_assoc.
Qed.

(** X9. Typing on narrows the list.  When the lower-cased query contains the
    lower-cased earlier query, the suggestions for it are among those for
    the earlier query, and filtering the earlier result gives the same list
    as filtering all suggestions.  A query that lower-cases to the empty
    string keeps every suggestion. *)
Theorem getSuggestions_narrows
  (toLowerCase : jsstring -> jsstring)
  (suggestions : list jsstring) (query query' : jsstring)
  (Hlonger : includes (toLowerCase query') (toLowerCase query) = true) :
  getSuggestions toLowerCase (getSuggestions toLowerCase suggestions query) query'
  = getSuggestions toLowerCase suggestions query' /\
  sublist (getSuggestions toLowerCase suggestions query')
          (getSuggestions toLowerCase suggestions query) /\
  (toLowerCase query = [] ->
   getSuggestions toLowerCase suggestions query = suggestions).
Proof.
  assert (Heq : getSuggestions toLowerCase
                  (getSuggestions toLowerCase suggestions query) query'
                = getSuggestions toLowerCase suggestions query').
  { unfold getSuggestions. induction suggestions as [|s rest IH]; [reflexivity|].
    destruct (includes (toLowerCase s) (toLowerCase query)) eqn:E;
      destruct (includes (toLowerCase s) (toLowerCase query')) eqn:E';
      try (rewrite (includes_trans _ _ _ E' Hlonger) in E; discriminate);
      repeat first [ rewrite filter_cons_True by (simpl; congruence)
                   | rewrite filter_cons_False by (simpl; congruence) ];
      by rewrite IH. }
  split; [exact Heq|]. split.
  - rewrite <- Heq. unfold getSuggestions at 1. apply sublist_filter.
  - intros Hempty. clear Heq Hlonger. unfold getSuggestions. rewrite Hempty.
    induction suggestions as [|s rest IH]; [reflexivity|].
    rewrite filter_cons. case_decide as Hs; [by rewrite IH|].
    exfalso. apply Hs. apply includes_substring. by exists [], (toLowerCase s).
Qed.

Lemma getSuggestions_narrows_witness :
  sublist (getSuggestions asciiLower [lit "Cat"; lit "dog"; lit "catty"] (lit "CATT"))
          (getSuggestions asciiLower [lit "Cat"; lit "dog"; lit "catty"] (lit "ca")).
Proof.
  exact (proj1 (proj2 (getSuggestions_narrows asciiLower
                         [lit "Cat"; lit "dog"; lit "catty"] (lit "ca") (lit "CATT")
                         eq_refl))).
Defined.

End PickerMore.

(** ** The settings: loading, editing, saving *)

Section SettingsFacts.

Lemma default_wordDir :
  Settings.DEFAULT_OBJECT !! lit "wordDir" = Some (wordDir DEFAULT_SETTINGS).
Proof. unfold Settings.DEFAULT_OBJECT. apply lookup_insert_eq. Qed.

Lemma default_dictName :
  Settings.DEFAULT_OBJECT !! lit "dictName" = Some (dictName DEFAULT_SETTINGS).
Proof.
  unfold Settings.DEFAULT_OBJECT.
  rewrite lookup_insert_ne by discriminate. apply lookup_insert_eq.
Qed.

Lemma default_keys k :
  is_Some (Settings.DEFAULT_OBJECT !! k) -> k = lit "wordDir" \/ k = lit "dictName".
Proof.
  unfold Settings.DEFAULT_OBJECT. intros [v Hv].
  destruct (decide (k = lit "wordDir")) as [|Hk1]; [by left|].
  rewrite lookup_insert_ne in Hv by done.
  destruct (decide (k = lit "dictName")) as [|Hk2]; [by right|].
  rewrite lookup_insert_ne in Hv by done. by rewrite lookup_empty in Hv.
Qed.

Lemma loadSettings_lookup h k :
  Settings.settings (Settings.loadSettings h) !! k =
  match Settings.dataFile h ≫= (fun data => data !! k) with
  | Some v => Some v
  | None => Settings.DEFAULT_OBJECT !! k
  end.
Proof.
  unfold Settings.loadSettings, Settings.objectAssign; simpl.
  rewrite !lookup_union, lookup_empty.
  destruct (Settings.dataFile h) as [data|]; simpl.
  - destruct (data !! k), (Settings.DEFAULT_OBJECT !! k); reflexivity.
  - rewrite lookup_empty. by destruct (Settings.DEFAULT_OBJECT !! k).
Qed.

(** X10. [loadSettings] lays the stored data over the defaults: a property
    the data file holds keeps its stored value (properties the plugin does
    not know are kept too), every other property has its default, and
    [wordDir] and [dictName] are defined whatever the file holds; without a
    data file the settings are the defaults.  The data file is not
    written. *)
Theorem loadSettings_merges (h : Settings.Host) :
  (forall k,
     Settings.settings (Settings.loadSettings h) !! k =
     match Settings.dataFile h ≫= (fun data => data !! k) with
     | Some v => Some v
     | None => Settings.DEFAULT_OBJECT !! k
     end) /\
  is_Some (Settings.wordDirOf (Settings.loadSettings h)) /\
  is_Some (Settings.dictNameOf (Settings.loadSettings h)) /\
  (Settings.dataFile h = None ->
   Settings.settings (Settings.loadSettings h) = Settings.DEFAULT_OBJECT /\
   Settings.wordDirOf (Settings.loadSettings h) = Some (lit "words") /\
   Settings.dictNameOf (Settings.loadSettings h) = Some (lit "fd-fra-eng")) /\
  Settings.dataFile (Settings.loadSettings h) = Settings.dataFile h /\
  Settings.shown (Settings.loadSettings h) = Settings.shown h.
Proof.
  split; [apply loadSettings_lookup|].
  unfold Settings.wordDirOf, Settings.dictNameOf.
  rewrite !loadSettings_lookup, default_wordDir, default_dictName.
  split; [by destruct (_ ≫= _); eauto|]. split; [by destruct (_ ≫= _); eauto|].
  split; [|done]. intros Hnone. split; [|by rewrite Hnone].
  apply map_eq. intros k. by rewrite loadSettings_lookup, Hnone.
Qed.

Lemma consistent_saved h0 h :
  is_Some (Settings.wordDirOf h) -> is_Some (Settings.dictNameOf h) ->
  Settings.consistent h0 (Settings.saveSettings h).
Proof. intros H1 H2. repeat split; try assumption. by left. Qed.

Lemma consistent_handle basePath getFolderByPath h0 h e :
  Settings.consistent h0 h -> Settings.consistent h0 (Settings.handle basePath getFolderByPath h e).
Proof.
  intros (Hw & Hd & Hfile). destruct e as [value|value]; simpl.
  - unfold Settings.onChangeWordDir.
    destruct (getFolderByPath value) as [path|]; [|by repeat split].
    apply consistent_saved; unfold Settings.wordDirOf, Settings.dictNameOf; simpl.
    + rewrite lookup_insert_eq. eauto.
    + by rewrite lookup_insert_ne by discriminate.
  - unfold Settings.onChangeDictName.
    apply consistent_saved; unfold Settings.wordDirOf, Settings.dictNameOf; simpl.
    + by rewrite lookup_insert_ne by discriminate.
    + rewrite lookup_insert_eq. eauto.
Qed.

Lemma consistent_reload h0 h :
  Settings.consistent h0 h ->
  Settings.settings (Settings.loadSettings h) = Settings.settings h.
Proof.
  intros (Hw & Hd & [Hfile|[Hfile Hsame]]).
  - apply map_eq. intros k. rewrite loadSettings_lookup, Hfile. simpl.
    destruct (Settings.settings h !! k) eqn:E; [reflexivity|].
    destruct (Settings.DEFAULT_OBJECT !! k) eqn:E'; [|reflexivity].
    exfalso. destruct (default_keys k) as [->| ->]; [eauto| |].
    + unfold Settings.wordDirOf in Hw. rewrite E in Hw. by destruct Hw.
    + unfold Settings.dictNameOf in Hd. rewrite E in Hd. by destruct Hd.
  - rewrite Hsame. apply map_eq. intros k.
    by rewrite !loadSettings_lookup, Hfile.
Qed.

(** X11. Memory and data file stay in step.  After [loadSettings] and any
    edits of the two fields, accepted or rejected, [wordDir] and [dictName]
    are defined and loading again gives the settings in memory; the data
    file holds exactly the settings in memory, unless no edit was accepted
    yet and both are as [loadSettings] left them. *)
Theorem settings_stay_consistent
  (basePath : jsstring) (getFolderByPath : jsstring -> option jsstring)
  (h0 : Settings.Host) (edits : list Settings.edit) :
  exists h,
    h = foldl (Settings.handle basePath getFolderByPath)
              (Settings.loadSettings h0) edits /\
    is_Some (Settings.wordDirOf h) /\ is_Some (Settings.dictNameOf h) /\
    Settings.settings (Settings.loadSettings h) = Settings.settings h /\
    (Settings.dataFile h = Some (Settings.settings h) \/
     (Settings.dataFile h = Settings.dataFile h0 /\
      Settings.settings h = Settings.settings (Settings.loadSettings h0))).
Proof.
  eexists. split; [reflexivity|].
  assert (Hc : Settings.consistent h0
                 (foldl (Settings.handle basePath getFolderByPath)
                        (Settings.loadSettings h0) edits)).
  { induction edits as [|e edits IH] using rev_ind.
    - simpl. destruct (loadSettings_merges h0) as (_ & Hw & Hd & _ & Hfile & _).
      repeat split; try assumption. by right.
    - rewrite foldl_app. simpl. by apply consistent_handle. }
  pose proof (consistent_reload _ _ Hc) as Hreload.
  destruct Hc as (Hw & Hd & Hfile). by repeat split.
Qed.

(** X12. What one edit does.  A word directory the vault does not know is
    refused: the user is told, and neither the settings nor the data file
    change.  A known one is stored as the base path of the vault, a slash
    and the path of the folder, and saved; the dictionary name is left
    alone.  A dictionary name is stored and saved as typed, the empty one
    too; the word directory is left alone. *)
Theorem settings_edit_effects
  (basePath : jsstring) (getFolderByPath : jsstring -> option jsstring)
  (value : jsstring) (h : Settings.Host) :
  (getFolderByPath value = None ->
   Settings.settings (Settings.onChangeWordDir basePath getFolderByPath value h)
   = Settings.settings h /\
   Settings.dataFile (Settings.onChangeWordDir basePath getFolderByPath value h)
   = Settings.dataFile h /\
   Settings.shown (Settings.onChangeWordDir basePath getFolderByPath value h)
   = Settings.shown h ++ [Notice (lit "Invalid path to word directory.")]) /\
  (forall path, getFolderByPath value = Some path ->
   Settings.wordDirOf (Settings.onChangeWordDir basePath getFolderByPath value h)
   = Some (basePath ++ lit "/" ++ path) /\
   Settings.dictNameOf (Settings.onChangeWordDir basePath getFolderByPath value h)
   = Settings.dictNameOf h /\
   Settings.dataFile (Settings.onChangeWordDir basePath getFolderByPath value h)
   = Some (Settings.settings
             (Settings.onChangeWordDir basePath getFolderByPath value h))) /\
  Settings.dictNameOf (Settings.onChangeDictName value h) = Some value /\
  Settings.wordDirOf (Settings.onChangeDictName value h) = Settings.wordDirOf h /\
  Settings.dataFile (Settings.onChangeDictName value h)
  = Some (Settings.settings (Settings.onChangeDictName value h)).
Proof.
  unfold Settings.onChangeWordDir, Settings.onChangeDictName,
    Settings.wordDirOf, Settings.dictNameOf.
  split; [by intros ->|]. split.
  - intros path ->. simpl. rewrite lookup_insert_eq.
    by rewrite lookup_insert_ne by discriminate.
  - simpl. rewrite lookup_insert_eq.
    by rewrite lookup_insert_ne by discriminate.
Qed.

End SettingsFacts.

(** ** The earlier match search *)

Section EarlierFacts.
Import RegExp RegExpFacts.

Lemma getLastMatchIndex_scan p input :
  Earlier.getLastMatchIndex p input =
  match scan p 0 input with
  | Some (i, n) => Z.of_nat (i + n)
  | None => -1
  end.
Proof.
  unfold Earlier.getLastMatchIndex, exec, create; simpl.
  assert ((strlen input <? 0) = false) as ->
    by (unfold strlen; apply Z.ltb_ge; lia).
  simpl. change (Z.to_nat 0) with 0%nat. rewrite drop_0.
  by destruct (scan p 0 input) as [[i n]|].
Qed.

(** X13. [getLastMatchIndex] of the earlier revision agrees with
    [getNextMatchBounds]: it returns -1 exactly when [getNextMatchBounds]
    returns [null], which is when the pattern occurs nowhere, and otherwise
    the end of the bounds; a result other than -1 is a position of the input,
    so -1 never stands for a match. *)
Theorem getLastMatchIndex_agrees (p : pattern) (input : jsstring) :
  (Earlier.getLastMatchIndex p input = -1 <-> getNextMatchBounds p input = None) /\
  (Earlier.getLastMatchIndex p input = -1 <->
   forall i w, ~ occursAt p input i w) /\
  (forall a b, getNextMatchBounds p input = Some (a, b) ->
     Earlier.getLastMatchIndex p input = b) /\
  (Earlier.getLastMatchIndex p input = -1 \/
   Z.of_nat (minLength p) <= Earlier.getLastMatchIndex p input <= strlen input).
Proof.
  assert (H1 : Earlier.getLastMatchIndex p input = -1
               <-> getNextMatchBounds p input = None).
  { rewrite getLastMatchIndex_scan, getNextMatchBounds_scan.
    destruct (scan p 0 input) as [[i n]|]; split; try done. lia. }
  assert (H3 : forall a b, getNextMatchBounds p input = Some (a, b) ->
                 Earlier.getLastMatchIndex p input = b).
  { intros a b. rewrite getLastMatchIndex_scan, getNextMatchBounds_scan.
    destruct (scan p 0 input) as [[i n]|]; [|done]. by intros [= _ <-]. }
  split; [exact H1|]. split; [|split; [exact H3|]].
  - rewrite H1. split.
    + apply getNextMatchBounds_None_absent.
    + apply getNextMatchBounds_absent.
  - destruct (getNextMatchBounds p input) as [[a b]|] eqn:E.
    + right. rewrite (H3 a b eq_refl).
      apply getNextMatchBounds_range in E. lia.
    + left. by apply H1.
Qed.

End EarlierFacts.

(** ** The answer of one dictionary *)

Section SingleSource.
Import RegExp RegExpFacts.

Lemma occursAt_app_l p s r i w : occursAt p s i w -> occursAt p (s ++ r) i w.
Proof.
  intros [HM (post & Hdrop & Hi)]. split; [exact HM|]. exists (post ++ r).
  rewrite drop_app_le by exact Hi. rewrite Hdrop, length_app, <- app_assoc.
  split; [reflexivity|lia].
Qed.

(** X14. The answer of a single dictionary.  When the text after the marker
    is one header [From <source>:] with its blank line and then a body that is
    not blank and in which no header occurs, the definition is the body,
    trimmed. *)
Theorem tryParseDefinitions_single_source
  (raw : jsstring) (a b : Z) (source body : jsstring)
  (Hmarker : getNextMatchBounds definitionFoundPattern raw = Some (a, b))
  (Hafter : drop (Z.to_nat b) raw = sourceHeader source ++ body)
  (Hsource : source <> [])
  (Hline : forallb (fun c => negb (isLineTerminator c)) source = true)
  (Hbody : forallb isWhiteSpace body = false)
  (Hnone : forall i w, ~ occursAt definitionSourcePattern body i w) :
  tryParseDefinitions raw = Some (trim body) /\
  parse raw = Found (trim body) /\
  trim body <> [].
Proof.
  assert (Hline' : lineText source).
  { unfold lineText. apply Forall_forall. intros c Hc.
    rewrite forallb_forall in Hline. apply Hline. by apply list_elem_of_In. }
  destruct (trimEnd_decomp body) as (r & Hr & Hb & [E|(t & c & E & Hc)]).
  { exfalso. rewrite E in Hb. simpl in Hb. subst r.
    apply blank_forallb in Hr. congruence. }
  rewrite E in Hb.
  assert (Htrim : trim (sourceHeader source ++ body)
                  = sourceHeader source ++ t ++ [c]).
  { unfold trim.
    assert (trimStart (sourceHeader source ++ body)
            = sourceHeader source ++ body) as -> by reflexivity.
    rewrite Hb, !app_assoc, trimEnd_blank by assumption.
    by apply trimEnd_last. }
  assert (Hstep : stripStep (sourceHeader source ++ t ++ [c]) = Some (t ++ [c])).
  { rewrite (stripStep_head _ (length (sourceHeader source))).
    - by rewrite drop_app_length.
    - apply header_matchHere. exists source, (t ++ [c]). by repeat split. }
  assert (Hclean : stripStep (t ++ [c]) = None).
  { apply stripStep_absent. intros i w Hocc. apply (Hnone i w).
    rewrite Hb. by apply occursAt_app_l. }
  assert (Hparse : tryParseDefinitions raw = Some (trim body)).
  { rewrite (tryParseDefinitions_marker _ _ _ Hmarker), Hafter, Htrim.
    rewrite stripSources_unfold, Hstep, (stripSources_fixed _ Hclean).
    f_equal. rewrite Hb. symmetry.
    exact (trim_blank_context [] (t ++ [c]) r ltac:(constructor) Hr). }
  split; [exact Hparse|]. split; [by apply parse_found|].
  rewrite Hb.
  rewrite (trim_blank_context [] (t ++ [c]) r ltac:(constructor) Hr
           : trim ((t ++ [c]) ++ r) = trim (t ++ [c])).
  by apply trim_last_nonempty.
Qed.

Lemma tryParseDefinitions_single_source_witness :
  tryParseDefinitions scenarioA = Some (trim (lit "cat: a small domestic animal")).
Proof.
  refine (proj1 (tryParseDefinitions_single_source scenarioA 0 20
                   (lit "Test Dict") (lit "cat: a small domestic animal")
                   _ _ _ _ _ _)).
  - by vm_compute.
  - reflexivity.
  - discriminate.
  - reflexivity.
  - reflexivity.
  - apply getNextMatchBounds_None_absent. by vm_compute.
Defined.

End SingleSource.
